(** * The light component of the game system (gamesys/components/comp_light.cpp)

    A shallow embedding of the six component callbacks
    [CompLightNewWorld], [CompLightDeleteWorld], [CompLightCreate],
    [CompLightDestroy], [CompLightUpdate] and [CompLightOnMessage], with the
    free store, the message bus and the error log as explicit state. *)

From Stdlib Require Import ZArith String Ascii List Lia.
From stdpp Require Import base option list gmap vector.

Local Open Scope Z_scope.

(** ** Results and outcomes *)

(** dmGameObject::CreateResult and dmGameObject::UpdateResult, restricted to
    the enumerators the component mentions. *)
Inductive CreateResult := CREATE_RESULT_OK | CREATE_RESULT_UNKNOWN_ERROR.
Inductive UpdateResult := UPDATE_RESULT_OK | UPDATE_RESULT_UNKNOWN_ERROR.

(** dmMessage::Result.  The component only compares against [RESULT_OK];
    every other enumerator of dlib/message.h is kept by its numeric code. *)
Inductive MessageResult := RESULT_OK | RESULT_ERROR (code : Z).

Definition is_RESULT_OK (r : MessageResult) : bool :=
  match r with RESULT_OK => true | RESULT_ERROR _ => false end.

(** How a call ends: it returns, an [assert] fires (the process aborts), or
    it dereferences a pointer that does not point to a live object of the
    expected type (undefined behaviour in C++). *)
Inductive Outcome (A : Type) : Type :=
| Returns (a : A)
| AssertionFailed
| Undefined.
Arguments Returns {A} a.
Arguments AssertionFailed {A}.
Arguments Undefined {A}.

Global Instance Outcome_bind : MBind Outcome := fun A B k m =>
  match m with
  | Returns a => k a
  | AssertionFailed => AssertionFailed
  | Undefined => Undefined
  end.
Global Instance Outcome_ret : MRet Outcome := fun A a => Returns a.

(** ** dmArray *)

(** Modelled from the spec: dlib/array.h is not part of the sources.  The
    spec calls the container a small dynamic list; the model keeps the
    elements in order together with the capacity, and gives [Full],
    [OffsetCapacity], [Push], [EraseSwap] and indexing the meaning the
    component relies on: a push needs spare capacity, an erase moves the
    last element into the erased slot, and both, like indexing, are guarded
    by an assertion. *)
Module dmArray.
Record t (T : Type) := Make { m_Elems : list T; m_Capacity : nat }.
Arguments Make {T} _ _.
Arguments m_Elems {T} _.
Arguments m_Capacity {T} _.

Section Ops.
Context {T : Type}.

(** The default constructor: no storage at all. *)
Definition empty : t T := Make [] 0.

Definition Size (a : t T) : nat := length (m_Elems a).
Definition Capacity (a : t T) : nat := m_Capacity a.
Definition Full (a : t T) : bool := Nat.eqb (Size a) (Capacity a).

Definition OffsetCapacity (offset : nat) (a : t T) : t T :=
  Make (m_Elems a) (Capacity a + offset).

(** assert(Capacity() - Size() > 0); *m_End++ = x; *)
Definition Push (x : T) (a : t T) : Outcome (t T) :=
  if Nat.ltb 0 (Capacity a - Size a)
  then Returns (Make (m_Elems a ++ [x]) (m_Capacity a))
  else AssertionFailed.

(** assert(i < Size()); return m_Front[i]; *)
Definition At (i : nat) (a : t T) : Outcome T :=
  match m_Elems a !! i with
  | Some x => Returns x
  | None => AssertionFailed
  end.

(** assert(index < Size()); m_Front[index] = *(m_End - 1); m_End--; *)
Definition EraseSwap (index : nat) (a : t T) : Outcome (t T) :=
  if Nat.ltb index (Size a)
  then match last (m_Elems a) with
       | Some back =>
           Returns (Make (take (Size a - 1) (<[index := back]> (m_Elems a)))
                         (m_Capacity a))
       | None => AssertionFailed
       end
  else AssertionFailed.

(** Size never exceeds capacity. *)
Definition wf (a : t T) : Prop := (Size a <= Capacity a)%nat.
End Ops.
End dmArray.

(** ** Objects of the component *)

(** Addresses in the free store.  The null pointer is not an address. *)
Definition ptr := positive.

(** dmGameObject::HInstance and dmGameSystemDDF::LightDesc** are pointers
    into memory owned by the engine; the component only stores them and
    hands them back. *)
Definition HInstance := Z.
Definition LightResource := Z.

(** struct Light is declared in comp_light.h, outside the sources; its
    members are the two the component reads, set by the constructor
    Light(instance, light_resource). *)
Record Light := { m_Instance : HInstance; m_LightResource : LightResource }.

(** struct LightWorld, of the same header: the array of lights. *)
Record LightWorld := { m_Lights : dmArray.t ptr }.

Inductive Object := OLight (l : Light) | OWorld (w : LightWorld).

(** ** Unsigned machine integers and the "%X" conversion *)

Definition u32 (z : Z) : Z := z mod 2 ^ 32.
Definition u64 (z : Z) : Z := z mod 2 ^ 64.

Definition NUL : ascii := Ascii.zero.

(** One hexadecimal digit, upper case as "%X" prints it. *)
Definition hex_digit (d : Z) : ascii :=
  if d <? 10 then ascii_of_N (Z.to_N (48 + d)) else ascii_of_N (Z.to_N (55 + d)).

(** Digits of [v], most significant first, in front of [acc]; [fuel] bounds
    the number of divisions. *)
Fixpoint hex_digits (fuel : nat) (v : Z) (acc : list ascii) : list ascii :=
  let acc' := hex_digit (v mod 16) :: acc in
  match fuel with
  | O => acc'
  | S fuel' => if v / 16 =? 0 then acc' else hex_digits fuel' (v / 16) acc'
  end.

(** What printf's "%X" prints for an unsigned value: no prefix, no leading
    zeros, a single 0 for zero. *)
Definition format_X (v : Z) : list ascii :=
  hex_digits (Z.to_nat (Z.log2 v)) v [].

(** The value of a character read as a hexadecimal digit, and of a digit
    string read as a number: the inverse of [format_X]. *)
Definition hex_digit_value (c : ascii) : Z :=
  let n := Z.of_N (N_of_ascii c) in
  if n <? 58 then n - 48 else n - 55.

Definition hex_step (acc : Z) (c : ascii) : Z := 16 * acc + hex_digit_value c.

Definition hex_value (s : list ascii) : Z := fold_left hex_step s 0.

(** An upper-case hexadecimal digit: '0'..'9' or 'A'..'F'. *)
Definition is_hex_upper (c : ascii) : Prop :=
  let n := Z.of_N (N_of_ascii c) in (48 <= n <= 57) ∨ (65 <= n <= 70).

(** Modelled from the spec: DM_SNPRINTF (dlib/dstrings.h) is not part of
    the sources; it is the C library's snprintf, modelled for the one
    format the component uses, which the spec describes as writing into a
    fixed-size buffer.  snprintf(dst, n, "%X", v) on the [dst] bytes
    available at the destination: at most [n - 1] characters of the
    conversion and a terminating NUL overwrite the front of [dst], the rest
    of [dst] keeps its old contents; the return value is the length of the
    whole conversion.  Passing a size larger than the destination is a
    buffer overrun. *)
Definition snprintf_X (dst : list ascii) (n : nat) (v : Z)
  : Outcome (list ascii * nat) :=
  let s := format_X v in
  match n with
  | O => Returns (dst, length s)
  | S m =>
      if Nat.leb n (length dst)
      then let out := take m s ++ [NUL] in
           Returns (out ++ drop (length out) dst, length s)
      else Undefined
  end.

(** The C string stored at the front of a byte region: the bytes before the
    first NUL. *)
Fixpoint c_str (bytes : list ascii) : list ascii :=
  match bytes with
  | [] => []
  | c :: rest => if Ascii.eqb c NUL then [] else c :: c_str rest
  end.

(** A region holds a C string written over the older contents [prev]: behind
    the string and its NUL the bytes are those of [prev]. *)
Definition written_over (prev region : list ascii) : Prop :=
  drop (S (length (c_str region))) region = drop (S (length (c_str region))) prev.

(** Each region of the list is written over the one before it, the first
    over [prev]. *)
Fixpoint written_in_turn (prev : list ascii) (regions : list (list ascii)) : Prop :=
  match regions with
  | [] => True
  | region :: rest => written_over prev region ∧ written_in_turn region rest
  end.

(** ** Parameters of the callbacks

    Only the members the component reads are kept.  The out-parameters
    [m_World] of ComponentNewWorldParams and [m_UserData] of
    ComponentCreateParams are written exactly once by their callback: the
    value written is returned next to the result. *)
Module ComponentDeleteWorldParams.
Record t := Make { m_World : ptr }.
End ComponentDeleteWorldParams.

Module ComponentCreateParams.
Record t := Make { m_Instance : HInstance; m_Resource : LightResource; m_World : ptr }.
End ComponentCreateParams.

Module ComponentDestroyParams.
Record t := Make { m_World : ptr; m_UserData : ptr }.
End ComponentDestroyParams.

Module ComponentsUpdateParams.
Record t := Make { m_World : ptr }.
End ComponentsUpdateParams.

(** dmMessage::HSocket is a handle; dmMessage::URI is modelled by the one
    member the component sets. *)
Definition HSocket := Z.
Record URI := { m_Socket : HSocket }.

Section Component.

(** Types of the headers that are not part of the sources: the vector
    types of Vectormath::Aos and the types of the members of
    dmGameSystemDDF::LightDesc.  Their values are only copied. *)
Variables Point3 Quat : Type.
Variables LightType Scalar Color : Type.

(** dmGameSystemDDF::LightDesc.  [m_Id] is a [const char*]: in a loaded
    resource it points to a string ([Id := string]); in a message it is
    the offset of the string from the start of the message ([Id := Z]). *)
Record LightDesc (Id : Type) := {
  m_Id : Id;
  m_Type : LightType;
  m_Intensity : Scalar;
  m_Color : Color;
  m_Range : Scalar;
  m_Decay : Scalar;
  m_ConeAngle : Scalar;
  m_PenumbraAngle : Scalar;
  m_DropOff : Scalar
}.
Arguments m_Id {Id} _.
Arguments m_Type {Id} _.
Arguments m_Intensity {Id} _.
Arguments m_Color {Id} _.
Arguments m_Range {Id} _.
Arguments m_Decay {Id} _.
Arguments m_ConeAngle {Id} _.
Arguments m_PenumbraAngle {Id} _.
Arguments m_DropOff {Id} _.

(** dmGameSystemDDF::SetLight. *)
Record SetLight := {
  m_Position : Point3;
  m_Rotation : Quat;
  m_Light : LightDesc Z
}.

(** char buf[sizeof(SetLight) + 9]: the struct, then the 9-byte tail. *)
Record Buffer := { buf_set_light : SetLight; buf_tail : list ascii }.

(** What the automatic array [buf] holds when it comes into being: it is
    not initialised, so any struct and any 9 bytes are possible. *)
Record Stack := { stack_set_light : SetLight; stack_tail : vec ascii 9 }.

(** The arguments of one call of dmMessage::Post; [None] is the null
    sender. *)
Record PostCall := {
  post_sender : option URI;
  post_receiver : URI;
  post_message_id : Z;
  post_descriptor : Z;
  post_data : Buffer;
  post_data_size : Z
}.

(** The message system (dlib/message.h) is not part of the sources: its
    state is opaque and its two entry points are parameters. *)
Variable Bus : Type.
Variable GetSocket : Bus -> string -> MessageResult * HSocket.
Variable Post : Bus -> PostCall -> MessageResult * Bus.

(** dlib/hash.h; the results are converted to uint32_t and uint64_t. *)
Variable dmHashString32 : string -> Z.
Variable dmHashString64 : string -> Z.

(** sizeof(dmGameSystemDDF::SetLight) and the address of
    dmGameSystemDDF::SetLight::m_DDFDescriptor. *)
Variable sizeof_SetLight : Z.
Variable m_DDFDescriptor : Z.

(** operator new: the address it returns for an object, given the live
    objects. *)
Variable new_address : gmap ptr Object -> ptr.

(** The state the callbacks run in.  The game objects and the resources
    belong to the engine, which keeps them alive while a light refers to
    them: reading them is a total function of the state. *)
Record State := {
  heap : gmap ptr Object;                     (* objects made with new *)
  position : HInstance -> Point3;             (* dmGameObject::GetPosition *)
  rotation : HInstance -> Quat;               (* dmGameObject::GetRotation *)
  resource : LightResource -> LightDesc string; (* **light_resource *)
  bus : Bus;                                  (* the message system *)
  posted : list (PostCall * MessageResult);   (* calls of Post so far *)
  log : list string                           (* dmLogError output *)
}.

Definition set_heap (h : gmap ptr Object) (st : State) : State :=
  {| heap := h; position := position st; rotation := rotation st;
     resource := resource st; bus := bus st; posted := posted st;
     log := log st |}.

Definition dmLogError (msg : string) (st : State) : State :=
  {| heap := heap st; position := position st; rotation := rotation st;
     resource := resource st; bus := bus st; posted := posted st;
     log := log st ++ [msg] |}.

(** dmMessage::Post: the bus moves on and the call is recorded with its
    result. *)
Definition dmMessage_Post (c : PostCall) (st : State) : MessageResult * State :=
  let '(result, bus') := Post (bus st) c in
  (result,
   {| heap := heap st; position := position st; rotation := rotation st;
      resource := resource st; bus := bus'; posted := posted st ++ [(c, result)];
      log := log st |}).

(** Dereferencing a LightWorld* and a Light*. *)
Definition load_world (w : ptr) (st : State) : Outcome LightWorld :=
  match heap st !! w with
  | Some (OWorld lw) => Returns lw
  | _ => Undefined
  end.

Definition load_light (l : ptr) (st : State) : Outcome Light :=
  match heap st !! l with
  | Some (OLight x) => Returns x
  | _ => Undefined
  end.

(** Writing the members of a live LightWorld. *)
Definition store_world (w : ptr) (lw : LightWorld) (st : State) : Outcome State :=
  _ ← load_world w st;
  mret (set_heap (<[w := OWorld lw]> (heap st)) st).

(** new T(...) *)
Definition new_object (o : Object) (st : State) : ptr * State :=
  let p := new_address (heap st) in
  (p, set_heap (<[p := o]> (heap st)) st).

(** delete on a LightWorld* and on a Light*. *)
Definition delete_world (w : ptr) (st : State) : Outcome State :=
  _ ← load_world w st;
  mret (set_heap (delete w (heap st)) st).

Definition delete_light (l : ptr) (st : State) : Outcome State :=
  _ ← load_light l st;
  mret (set_heap (delete l (heap st)) st).

(** ** The callbacks *)

Definition CompLightNewWorld (st : State) : Outcome (CreateResult * ptr * State) :=
  let '(world, st) := new_object (OWorld {| m_Lights := dmArray.empty |}) st in
  mret (CREATE_RESULT_OK, world, st).

Definition CompLightDeleteWorld (params : ComponentDeleteWorldParams.t) (st : State)
  : Outcome (CreateResult * State) :=
  let light_world := ComponentDeleteWorldParams.m_World params in
  st ← delete_world light_world st;
  mret (CREATE_RESULT_OK, st).

Definition CompLightCreate (params : ComponentCreateParams.t) (st : State)
  : Outcome (CreateResult * ptr * State) :=
  let light_resource := ComponentCreateParams.m_Resource params in
  let light_world := ComponentCreateParams.m_World params in
  lw ← load_world light_world st;
  st ← (if dmArray.Full (m_Lights lw)
        then store_world light_world
               {| m_Lights := dmArray.OffsetCapacity 16 (m_Lights lw) |} st
        else mret st);
  let '(light, st) :=
    new_object (OLight {| m_Instance := ComponentCreateParams.m_Instance params;
                          m_LightResource := light_resource |}) st in
  lw ← load_world light_world st;
  lights ← dmArray.Push light (m_Lights lw);
  st ← store_world light_world {| m_Lights := lights |} st;
  mret (CREATE_RESULT_OK, light, st).

(** The loop of CompLightDestroy from index [i] on; [steps] is
    Size() - i.  Falling out of the loop reaches assert(false). *)
Fixpoint CompLightDestroy_loop (steps i : nat) (light light_world : ptr)
    (st : State) : Outcome (CreateResult * State) :=
  match steps with
  | O => AssertionFailed
  | S steps' =>
      lw ← load_world light_world st;
      x ← dmArray.At i (m_Lights lw);
      if decide (x = light)
      then
        lights ← dmArray.EraseSwap i (m_Lights lw);
        st ← store_world light_world {| m_Lights := lights |} st;
        st ← delete_light light st;
        mret (CREATE_RESULT_OK, st)
      else CompLightDestroy_loop steps' (S i) light light_world st
  end.

Definition CompLightDestroy (params : ComponentDestroyParams.t) (st : State)
  : Outcome (CreateResult * State) :=
  let light := ComponentDestroyParams.m_UserData params in
  let light_world := ComponentDestroyParams.m_World params in
  lw ← load_world light_world st;
  CompLightDestroy_loop (dmArray.Size (m_Lights lw)) 0 light light_world st.

(** The body of the loop of CompLightUpdate for the light at index [i],
    up to the call of Post: the contents of [buf] after the writes. *)
Definition fill_buffer (light : Light) (buf : Buffer) (st : State) : Outcome Buffer :=
  let position := position st (m_Instance light) in
  let rotation := rotation st (m_Instance light) in
  let light_desc := resource st (m_LightResource light) in
  '(tail, _) ← snprintf_X (buf_tail buf) 9 (u32 (dmHashString32 (m_Id light_desc)));
  mret {| buf_set_light :=
            {| m_Light :=
                 {| m_Id := sizeof_SetLight;
                    m_Type := m_Type light_desc;
                    m_Intensity := m_Intensity light_desc;
                    m_Color := m_Color light_desc;
                    m_Range := m_Range light_desc;
                    m_Decay := m_Decay light_desc;
                    m_ConeAngle := m_ConeAngle light_desc;
                    m_PenumbraAngle := m_PenumbraAngle light_desc;
                    m_DropOff := m_DropOff light_desc |};
               m_Position := position;
               m_Rotation := rotation |};
          buf_tail := tail |}.

(** The loop of CompLightUpdate from index [i] on; [steps] is
    Size() - i. *)
Fixpoint CompLightUpdate_loop (steps i : nat) (light_world : ptr)
    (receiver : URI) (message_id data_size : Z) (buf : Buffer) (st : State)
  : Outcome (UpdateResult * State) :=
  match steps with
  | O => mret (UPDATE_RESULT_OK, st)
  | S steps' =>
      lw ← load_world light_world st;
      light ← dmArray.At i (m_Lights lw);
      light ← load_light light st;
      buf ← fill_buffer light buf st;
      let '(result, st) :=
        dmMessage_Post {| post_sender := None;
                          post_receiver := receiver;
                          post_message_id := message_id;
                          post_descriptor := m_DDFDescriptor;
                          post_data := buf;
                          post_data_size := data_size |} st in
      if negb (is_RESULT_OK result)
      then mret (UPDATE_RESULT_UNKNOWN_ERROR,
                 dmLogError "Could not send set_light message to @render." st)
      else CompLightUpdate_loop steps' (S i) light_world receiver message_id
             data_size buf st
  end.

(** [stack] is what the automatic array [buf] holds on entry. *)
Definition CompLightUpdate (params : ComponentsUpdateParams.t) (stack : Stack)
    (st : State) : Outcome (UpdateResult * State) :=
  let light_world := ComponentsUpdateParams.m_World params in
  let data_size := u32 (sizeof_SetLight + 9) in
  let buf := {| buf_set_light := stack_set_light stack;
                buf_tail := vec_to_list (stack_tail stack) |} in
  let '(result, socket) := GetSocket (bus st) "@render" in
  if negb (is_RESULT_OK result)
  then mret (UPDATE_RESULT_UNKNOWN_ERROR,
             dmLogError "Could not find the socket @render." st)
  else
    let receiver := {| m_Socket := socket |} in
    let message_id := u64 (dmHashString64 "set_light") in
    lw ← load_world light_world st;
    CompLightUpdate_loop (dmArray.Size (m_Lights lw)) 0 light_world receiver
      message_id data_size buf st.

(** dmGameObject::ComponentOnMessageParams is declared outside the
    sources; the callback does not look at it. *)
Variable ComponentOnMessageParams : Type.

Definition CompLightOnMessage (params : ComponentOnMessageParams) (st : State)
  : Outcome (UpdateResult * State) :=
  mret (UPDATE_RESULT_OK, st).

(** ** Sequences of calls

    The engine drives the component through its callbacks; between two
    callbacks it may move game objects, reload resources and deliver
    messages.  Next to the state a run keeps, for every world, the set of
    lights created in it and not yet destroyed. *)
Inductive Call :=
| NewWorld
| DeleteWorld (params : ComponentDeleteWorldParams.t)
| Create (params : ComponentCreateParams.t)
| Destroy (params : ComponentDestroyParams.t)
| Update (params : ComponentsUpdateParams.t) (stack : Stack)
| OnMessage (params : ComponentOnMessageParams)
| Engine (pos : HInstance -> Point3) (rot : HInstance -> Quat)
         (res : LightResource -> LightDesc string) (b : Bus).

Definition engine_step (pos : HInstance -> Point3) (rot : HInstance -> Quat)
    (res : LightResource -> LightDesc string) (b : Bus) (st : State) : State :=
  {| heap := heap st; position := pos; rotation := rot; resource := res;
     bus := b; posted := posted st; log := log st |}.

Definition call (c : Call) (s : State * gmap ptr (gset ptr))
  : Outcome (State * gmap ptr (gset ptr)) :=
  let '(st, live) := s in
  match c with
  | NewWorld =>
      '(_, world, st) ← CompLightNewWorld st;
      mret (st, <[world := ∅]> live)
  | DeleteWorld params =>
      '(_, st) ← CompLightDeleteWorld params st;
      mret (st, delete (ComponentDeleteWorldParams.m_World params) live)
  | Create params =>
      '(_, light, st) ← CompLightCreate params st;
      mret (st, alter (fun s => {[light]} ∪ s)
                  (ComponentCreateParams.m_World params) live)
  | Destroy params =>
      '(_, st) ← CompLightDestroy params st;
      mret (st, alter (fun s => s ∖ {[ComponentDestroyParams.m_UserData params]})
                  (ComponentDestroyParams.m_World params) live)
  | Update params stack =>
      '(_, st) ← CompLightUpdate params stack st;
      mret (st, live)
  | OnMessage params =>
      '(_, st) ← CompLightOnMessage params st;
      mret (st, live)
  | Engine pos rot res b => mret (engine_step pos rot res b st, live)
  end.

Fixpoint calls (cs : list Call) (s : State * gmap ptr (gset ptr))
  : Outcome (State * gmap ptr (gset ptr)) :=
  match cs with
  | [] => mret s
  | c :: cs => s ← call c s; calls cs s
  end.

(** The start of a run: nothing has been allocated. *)
Definition no_objects (st : State) : Prop := heap st = ∅.

(** The state [st], with the bookkeeping [live], is reached by a run. *)
Definition reachable (st : State) (live : gmap ptr (gset ptr)) : Prop :=
  ∃ st0 cs, no_objects st0 ∧ calls cs (st0, ∅) = Returns (st, live).

(** ** What a posted message says about a light *)

(** The lights of world [w], in the order of the array. *)
Definition lights_of (w : ptr) (st : State) : option (list ptr) :=
  match heap st !! w with
  | Some (OWorld lw) => Some (dmArray.m_Elems (m_Lights lw))
  | _ => None
  end.

(** The transform of the light's game object and the members of its
    descriptor are in the struct at the front of the message. *)
Definition carries_light (st : State) (light : Light) (c : PostCall) : Prop :=
  let desc := resource st (m_LightResource light) in
  let msg := buf_set_light (post_data c) in
  m_Position msg = position st (m_Instance light) ∧
  m_Rotation msg = rotation st (m_Instance light) ∧
  m_Type (m_Light msg) = m_Type desc ∧
  m_Intensity (m_Light msg) = m_Intensity desc ∧
  m_Color (m_Light msg) = m_Color desc ∧
  m_Range (m_Light msg) = m_Range desc ∧
  m_Decay (m_Light msg) = m_Decay desc ∧
  m_ConeAngle (m_Light msg) = m_ConeAngle desc ∧
  m_PenumbraAngle (m_Light msg) = m_PenumbraAngle desc ∧
  m_DropOff (m_Light msg) = m_DropOff desc.

(** The id of the light is in the message as a string: the 9-byte tail
    starts with the "%X" conversion of the 32-bit hash of the descriptor's
    id and its NUL, and [m_Id] is the offset of the tail. *)
Definition carries_id (st : State) (light : Light) (c : PostCall) : Prop :=
  let desc := resource st (m_LightResource light) in
  let hash := u32 (dmHashString32 (m_Id desc)) in
  m_Id (m_Light (buf_set_light (post_data c))) = sizeof_SetLight ∧
  length (buf_tail (post_data c)) = 9%nat ∧
  take (S (length (format_X hash))) (buf_tail (post_data c)) = format_X hash ++ [NUL].

(** The call of Post [ev] was made for the light at address [l]. *)
Definition posted_for (st : State) (receiver : URI) (l : ptr)
    (ev : PostCall * MessageResult) : Prop :=
  ∃ light, heap st !! l = Some (OLight light) ∧
    carries_light st light ev.1 ∧
    carries_id st light ev.1 ∧
    post_sender ev.1 = None ∧
    post_receiver ev.1 = receiver ∧
    post_message_id ev.1 = u64 (dmHashString64 "set_light") ∧
    post_descriptor ev.1 = m_DDFDescriptor ∧
    post_data_size ev.1 = u32 (sizeof_SetLight + 9).

Definition succeeded (ev : PostCall * MessageResult) : Prop := ev.2 = RESULT_OK.

(** Every address of the list points to a live Light. *)
Definition all_lights (st : State) (elems : list ptr) : Prop :=
  Forall (fun l => ∃ x, heap st !! l = Some (OLight x)) elems.

(** Two states that differ at most in the free store. *)
Definition same_engine (st st' : State) : Prop :=
  position st' = position st ∧ rotation st' = rotation st ∧
  resource st' = resource st ∧ bus st' = bus st ∧
  posted st' = posted st ∧ log st' = log st.

(** The array after EraseSwap(i). *)
Definition erase_swap (i : nat) (back : ptr) (a : dmArray.t ptr) : dmArray.t ptr :=
  dmArray.Make (take (dmArray.Size a - 1) (<[i := back]> (dmArray.m_Elems a)))
               (dmArray.m_Capacity a).

(** What holds for a live world during a run: its array is within its
    capacity and has no address twice, every address in it points to a
    live Light, and its addresses are those of the lights created in this
    world and not yet destroyed. *)
Definition world_ok (st : State) (live : gmap ptr (gset ptr)) (w : ptr)
    (lw : LightWorld) : Prop :=
  dmArray.wf (m_Lights lw) ∧
  NoDup (dmArray.m_Elems (m_Lights lw)) ∧
  all_lights st (dmArray.m_Elems (m_Lights lw)) ∧
  ∃ s : gset ptr, live !! w = Some s ∧
                  ∀ x, x ∈ dmArray.m_Elems (m_Lights lw) ↔ x ∈ s.

(** Every live world is in order, and no light is in two worlds. *)
Definition invariant (st : State) (live : gmap ptr (gset ptr)) : Prop :=
  (∀ w lw, heap st !! w = Some (OWorld lw) → world_ok st live w lw) ∧
  (∀ w1 w2 lw1 lw2 x,
     w1 ≠ w2 →
     heap st !! w1 = Some (OWorld lw1) → heap st !! w2 = Some (OWorld lw2) →
     x ∈ dmArray.m_Elems (m_Lights lw1) → x ∉ dmArray.m_Elems (m_Lights lw2)).

(** Two states that differ at most in the message system and the log. *)
Definition same_scene (st st' : State) : Prop :=
  heap st' = heap st ∧ position st' = position st ∧
  rotation st' = rotation st ∧ resource st' = resource st.

End Component.

Arguments m_Id {_ _ _ _} _.
Arguments m_Type {_ _ _ _} _.
Arguments m_Intensity {_ _ _ _} _.
Arguments m_Color {_ _ _ _} _.
Arguments m_Range {_ _ _ _} _.
Arguments m_Decay {_ _ _ _} _.
Arguments m_ConeAngle {_ _ _ _} _.
Arguments m_PenumbraAngle {_ _ _ _} _.
Arguments m_DropOff {_ _ _ _} _.
Arguments m_Position {_ _ _ _ _} _.
Arguments m_Rotation {_ _ _ _ _} _.
Arguments m_Light {_ _ _ _ _} _.
Arguments buf_set_light {_ _ _ _ _} _.
Arguments buf_tail {_ _ _ _ _} _.
Arguments stack_set_light {_ _ _ _ _} _.
Arguments stack_tail {_ _ _ _ _} _.
Arguments post_sender {_ _ _ _ _} _.
Arguments post_receiver {_ _ _ _ _} _.
Arguments post_message_id {_ _ _ _ _} _.
Arguments post_descriptor {_ _ _ _ _} _.
Arguments post_data {_ _ _ _ _} _.
Arguments post_data_size {_ _ _ _ _} _.
Arguments heap {_ _ _ _ _ _} _.
Arguments position {_ _ _ _ _ _} _ _.
Arguments rotation {_ _ _ _ _ _} _ _.
Arguments resource {_ _ _ _ _ _} _ _.
Arguments bus {_ _ _ _ _ _} _.
Arguments posted {_ _ _ _ _ _} _.
Arguments log {_ _ _ _ _ _} _.
Arguments set_heap {_ _ _ _ _ _} _ _.
Arguments dmLogError {_ _ _ _ _ _} _ _.
Arguments dmMessage_Post {_ _ _ _ _ _} _ _ _.
Arguments load_world {_ _ _ _ _ _} _ _.
Arguments load_light {_ _ _ _ _ _} _ _.
Arguments store_world {_ _ _ _ _ _} _ _ _.
Arguments new_object {_ _ _ _ _ _} _ _ _.
Arguments delete_world {_ _ _ _ _ _} _ _.
Arguments delete_light {_ _ _ _ _ _} _ _.
Arguments CompLightNewWorld {_ _ _ _ _ _} _ _.
Arguments CompLightDeleteWorld {_ _ _ _ _ _} _ _.
Arguments CompLightCreate {_ _ _ _ _ _} _ _ _.
Arguments CompLightDestroy_loop {_ _ _ _ _ _} _ _ _ _ _.
Arguments CompLightDestroy {_ _ _ _ _ _} _ _.
Arguments fill_buffer {_ _ _ _ _ _} _ _ _ _ _.
Arguments CompLightUpdate_loop {_ _ _ _ _ _} _ _ _ _ _ _ _ _ _ _ _ _.
Arguments CompLightUpdate {_ _ _ _ _ _} _ _ _ _ _ _ _ _ _.
Arguments CompLightOnMessage {_ _ _ _ _ _ _} _ _.
Arguments engine_step {_ _ _ _ _ _} _ _ _ _ _.
Arguments call {_ _ _ _ _ _} _ _ _ _ _ _ _ {_} _ _.
Arguments calls {_ _ _ _ _ _} _ _ _ _ _ _ _ {_} _ _.
Arguments no_objects {_ _ _ _ _ _} _.
Arguments reachable {_ _ _ _ _ _} _ _ _ _ _ _ _ {_} _ _.
Arguments lights_of {_ _ _ _ _ _} _ _.
Arguments carries_light {_ _ _ _ _ _} _ _ _.
Arguments carries_id {_ _ _ _ _ _} _ _ _ _ _.
Arguments posted_for {_ _ _ _ _ _} _ _ _ _ _ _ _ _.
Arguments succeeded {_ _ _ _ _} _.
Arguments same_scene {_ _ _ _ _ _} _ _.
Arguments all_lights {_ _ _ _ _ _} _ _.
Arguments same_engine {_ _ _ _ _ _} _ _.
Arguments world_ok {_ _ _ _ _ _} _ _ _ _.
Arguments invariant {_ _ _ _ _ _} _ _.
Arguments NewWorld {_ _ _ _ _ _ _}.
Arguments DeleteWorld {_ _ _ _ _ _ _} _.
Arguments Create {_ _ _ _ _ _ _} _.
Arguments Destroy {_ _ _ _ _ _ _} _.
Arguments Update {_ _ _ _ _ _ _} _ _.
Arguments OnMessage {_ _ _ _ _ _ _} _.
Arguments Engine {_ _ _ _ _ _ _} _ _ _ _.

(** ** A sample engine

    A concrete instance of everything the component takes from outside,
    used to run the callbacks: vectors are tuples of integers, the message
    system has a table of sockets and a queue with limited room, the hash is
    a polynomial hash, and operator new takes the first free address. *)
Module Sample.

Definition Point3 : Type := Z * Z * Z.
Definition Quat : Type := Z * Z * Z * Z.
Inductive LightType := POINT | SPOT.
Definition Scalar : Type := Z.
Definition Color : Type := Z * Z * Z.

Record Bus := { sockets : list (string * HSocket); room : nat }.

Fixpoint find_socket (name : string) (table : list (string * HSocket))
  : MessageResult * HSocket :=
  match table with
  | [] => (RESULT_ERROR (-3), 0)
  | (n, s) :: rest => if String.eqb n name then (RESULT_OK, s) else find_socket name rest
  end.

Definition GetSocket (b : Bus) (name : string) : MessageResult * HSocket :=
  find_socket name (sockets b).

Definition Post (b : Bus) (c : PostCall Point3 Quat LightType Scalar Color)
  : MessageResult * Bus :=
  match room b with
  | O => (RESULT_ERROR (-5), b)
  | S n => (RESULT_OK, {| sockets := sockets b; room := n |})
  end.

Definition hash (s : string) : Z :=
  fold_left (fun h c => h * 31 + Z.of_N (N_of_ascii c)) (list_ascii_of_string s) 7.

Definition new_address (h : gmap ptr Object) : ptr := fresh (dom h).

Definition sizeof_SetLight : Z := 80.
Definition m_DDFDescriptor : Z := 4096.

Definition lamp : LightDesc LightType Scalar Color string :=
  {| m_Id := "lamp"%string; m_Type := POINT; m_Intensity := 10; m_Color := (1, 2, 3);
     m_Range := 50; m_Decay := 2; m_ConeAngle := 0; m_PenumbraAngle := 0;
     m_DropOff := 0 |}.

Definition torch : LightDesc LightType Scalar Color string :=
  {| m_Id := EmptyString; m_Type := SPOT; m_Intensity := 4; m_Color := (9, 9, 0);
     m_Range := 20; m_Decay := 1; m_ConeAngle := 30; m_PenumbraAngle := 5;
     m_DropOff := 1 |}.

(** A state without objects, with a "@render" socket and room for [n]
    messages. *)
Definition start (n : nat) : State Point3 Quat LightType Scalar Color Bus :=
  {| heap := ∅;
     position := fun i => (i, 2 * i, 3 * i);
     rotation := fun i => (0, 0, i, 1);
     resource := fun r => if r =? 1 then lamp else torch;
     bus := {| sockets := [("@main"%string, 3); ("@render"%string, 7)]; room := n |};
     posted := [];
     log := [] |}.

(** The same without the "@render" socket. *)
Definition start_without_render : State Point3 Quat LightType Scalar Color Bus :=
  engine_step (position (start 0)) (rotation (start 0)) (resource (start 0))
    {| sockets := [("@main"%string, 3)]; room := 8 |} (start 0).

(** What the stack holds before CompLightUpdate writes to [buf]. *)
Definition stack : Stack Point3 Quat LightType Scalar Color :=
  {| stack_set_light :=
       {| m_Position := (0, 0, 0); m_Rotation := (0, 0, 0, 0);
          m_Light := {| m_Id := 0; m_Type := POINT; m_Intensity := 0;
                        m_Color := (0, 0, 0); m_Range := 0; m_Decay := 0;
                        m_ConeAngle := 0; m_PenumbraAngle := 0; m_DropOff := 0 |} |};
     stack_tail := [# "?"; "?"; "?"; "?"; "?"; "?"; "?"; "?"; "?"]%char |}.

Definition run (cs : list (Call Point3 Quat LightType Scalar Color Bus unit))
    (st : State Point3 Quat LightType Scalar Color Bus)
  : Outcome (State Point3 Quat LightType Scalar Color Bus * gmap ptr (gset ptr)) :=
  calls GetSocket Post hash hash sizeof_SetLight m_DDFDescriptor new_address cs (st, ∅).

(** One world, at address 1, with three lights, at addresses 2, 3, 4. *)
Definition three_lights : list (Call Point3 Quat LightType Scalar Color Bus unit) :=
  [NewWorld;
   Create (ComponentCreateParams.Make 5 1 1%positive);
   Create (ComponentCreateParams.Make 6 2 1%positive);
   Create (ComponentCreateParams.Make 7 1 1%positive)].

(** The state and the bookkeeping after a run, when it returns. *)
Definition after (cs : list (Call Point3 Quat LightType Scalar Color Bus unit))
    (st : State Point3 Quat LightType Scalar Color Bus)
  : State Point3 Quat LightType Scalar Color Bus * gmap ptr (gset ptr) :=
  match run cs st with
  | Returns s => s
  | _ => (st, ∅)
  end.

(** The sample world with its three lights, and room for [n] messages. *)
Definition world : ptr := 1%positive.
Definition lit (n : nat) : State Point3 Quat LightType Scalar Color Bus :=
  (after three_lights (start n)).1.
Definition lit_live : gmap ptr (gset ptr) := (after three_lights (start 0)).2.
Definition lit_world : LightWorld :=
  {| m_Lights := dmArray.Make [2%positive; 3%positive; 4%positive] 16 |}.

(** The same world when there is no "@render" socket. *)
Definition lit_without_render : State Point3 Quat LightType Scalar Color Bus :=
  (after three_lights start_without_render).1.

(** Two worlds, at addresses 1 and 3, with one light each, at addresses 2
    and 4. *)
Definition two_worlds : list (Call Point3 Quat LightType Scalar Color Bus unit) :=
  [NewWorld;
   Create (ComponentCreateParams.Make 5 1 1%positive);
   NewWorld;
   Create (ComponentCreateParams.Make 6 2 3%positive)].

Definition pair : State Point3 Quat LightType Scalar Color Bus :=
  (after two_worlds (start 0)).1.
Definition pair_live : gmap ptr (gset ptr) := (after two_worlds (start 0)).2.
Definition first_world : LightWorld := {| m_Lights := dmArray.Make [2%positive] 16 |}.
Definition second_world : LightWorld := {| m_Lights := dmArray.Make [4%positive] 16 |}.

End Sample.

(** * Properties *)

Lemma hex_digit_spec d :
  0 <= d < 16 → is_hex_upper (hex_digit d) ∧ hex_digit_value (hex_digit d) = d.
Proof.
  intros Hd.
  assert (Hcases : d = 0 ∨ d = 1 ∨ d = 2 ∨ d = 3 ∨ d = 4 ∨ d = 5 ∨ d = 6 ∨ d = 7 ∨
                   d = 8 ∨ d = 9 ∨ d = 10 ∨ d = 11 ∨ d = 12 ∨ d = 13 ∨ d = 14 ∨ d = 15)
    by lia.
  unfold is_hex_upper.
  repeat (destruct Hcases as [-> | Hcases]; [vm_compute; split; [|reflexivity]; intuition congruence |]).
  subst d. vm_compute. split; [|reflexivity]. intuition congruence.
Qed.

Lemma is_hex_upper_not_NUL c : is_hex_upper c → Ascii.eqb c NUL = false.
Proof.
  intros Hc. apply Ascii.eqb_neq. intros ->. unfold is_hex_upper in Hc.
  vm_compute in Hc. intuition congruence.
Qed.

Lemma hex_value_fold s : hex_value s = fold_left hex_step s 0.
Proof. reflexivity. Qed.

(** With enough fuel the digits denote the number, in upper-case digits. *)
Lemma hex_digits_spec fuel : ∀ v acc,
  0 <= v < 16 ^ Z.of_nat (S fuel) →
  ∃ ds, hex_digits fuel v acc = ds ++ acc ∧
        Forall is_hex_upper ds ∧
        (∀ a, fold_left hex_step ds a = a * 16 ^ Z.of_nat (length ds) + v).
Proof.
  induction fuel as [|fuel IH]; intros v acc Hv.
  - exists [hex_digit (v mod 16)]. simpl.
    change (16 ^ Z.of_nat 1) with 16 in Hv.
    rewrite Z.mod_small by lia.
    destruct (hex_digit_spec v) as [Hh Hval]; [lia|].
    split; [reflexivity|]. split; [by constructor|].
    intros a. unfold hex_step. rewrite Hval. lia.
  - simpl hex_digits.
    assert (Hm : 0 <= v mod 16 < 16) by (apply Z.mod_pos_bound; lia).
    destruct (hex_digit_spec (v mod 16) Hm) as [Hh Hval].
    destruct (Z.eqb_spec (v / 16) 0) as [Hq|Hq].
    + exists [hex_digit (v mod 16)]. split; [reflexivity|]. split; [by constructor|].
      intros a. simpl. unfold hex_step. rewrite Hval.
      pose proof (Z.div_mod v 16). lia.
    + destruct (IH (v / 16) (hex_digit (v mod 16) :: acc)) as (ds & Heq & Hds & Hfold).
      { rewrite Nat2Z.inj_succ, Z.pow_succ_r in Hv by lia.
        split; [apply Z.div_pos; lia|]. apply Z.div_lt_upper_bound; lia. }
      exists (ds ++ [hex_digit (v mod 16)]). split.
      { rewrite Heq. by rewrite <- app_assoc. }
      split. { apply Forall_app. split; [done|by constructor]. }
      intros a. rewrite fold_left_app, Hfold. simpl. unfold hex_step at 1.
      rewrite Hval, length_app. simpl length.
      rewrite Nat2Z.inj_add. change (Z.of_nat 1) with 1.
      rewrite Z.pow_add_r, Z.pow_1_r by lia.
      pose proof (Z.div_mod v 16). lia.
Qed.

(** The number of digits is bounded by the size of the number, whatever the
    fuel. *)
Lemma hex_digits_length fuel : ∀ v acc (k : nat),
  0 <= v < 16 ^ Z.of_nat (S k) →
  (length (hex_digits fuel v acc) <= length acc + S k)%nat.
Proof.
  induction fuel as [|fuel IH]; intros v acc k Hv; simpl hex_digits.
  - simpl. lia.
  - destruct (Z.eqb_spec (v / 16) 0) as [Hq|Hq]; [simpl; lia|].
    destruct k as [|k].
    { change (16 ^ Z.of_nat 1) with 16 in Hv. rewrite Z.div_small in Hq; lia. }
    etrans; [apply (IH _ _ k)|simpl; lia].
    rewrite (Nat2Z.inj_succ (S k)), Z.pow_succ_r in Hv by lia.
    split; [apply Z.div_pos; lia|]. apply Z.div_lt_upper_bound; lia.
Qed.

Lemma format_X_fuel v : 0 <= v → v < 16 ^ Z.of_nat (S (Z.to_nat (Z.log2 v))).
Proof.
  intros Hv. destruct (Z.eq_dec v 0) as [->|Hne]; [reflexivity|].
  pose proof (Z.log2_spec v ltac:(lia)) as [_ Hlt].
  pose proof (Z.log2_nonneg v) as Hl.
  rewrite Nat2Z.inj_succ, Z2Nat.id by lia.
  eapply Z.lt_le_trans; [exact Hlt|].
  change 16 with (2 ^ 4). rewrite <- Z.pow_mul_r by lia.
  apply Z.pow_le_mono_r; lia.
Qed.

Lemma format_X_spec v :
  0 <= v → Forall is_hex_upper (format_X v) ∧ hex_value (format_X v) = v.
Proof.
  intros Hv. unfold format_X.
  destruct (hex_digits_spec (Z.to_nat (Z.log2 v)) v []) as (ds & Heq & Hds & Hfold).
  { split; [done|by apply format_X_fuel]. }
  rewrite Heq, app_nil_r. split; [done|].
  rewrite hex_value_fold, Hfold. lia.
Qed.

Lemma hex_digits_nonempty fuel v acc : hex_digits fuel v acc ≠ [].
Proof.
  revert v acc. induction fuel as [|fuel IH]; intros v acc; simpl; [done|].
  destruct (v / 16 =? 0); [done|apply IH].
Qed.
Lemma format_X_nonempty v : format_X v ≠ [].
Proof. apply hex_digits_nonempty. Qed.

Lemma format_X_length_u32 z : (length (format_X (u32 z)) <= 8)%nat.
Proof.
  unfold format_X.
  etrans; [apply (hex_digits_length _ _ _ 7)|simpl; lia].
  unfold u32. change (16 ^ Z.of_nat 8) with (2 ^ 32). apply Z.mod_pos_bound. lia.
Qed.

Lemma c_str_app_NUL s rest :
  Forall is_hex_upper s → c_str (s ++ NUL :: rest) = s.
Proof.
  induction 1 as [|c s Hc _ IH]; simpl; [done|].
  by rewrite (is_hex_upper_not_NUL c Hc), IH.
Qed.

Lemma snprintf_X_u32 dst z :
  length dst = 9%nat →
  snprintf_X dst 9 (u32 z) =
    Returns (format_X (u32 z) ++ NUL :: drop (S (length (format_X (u32 z)))) dst,
             length (format_X (u32 z))).
Proof.
  intros Hlen. unfold snprintf_X. rewrite Hlen. simpl Nat.leb. cbv iota.
  pose proof (format_X_length_u32 z) as Hle.
  rewrite take_ge by lia.
  rewrite length_app. simpl length. rewrite Nat.add_1_r.
  by rewrite <- app_assoc.
Qed.

Lemma bind_Returns {A B} (a : A) (k : A → Outcome B) : (Returns a ≫= k) = k a.
Proof. reflexivity. Qed.

Section Properties.

Variables Point3 Quat LightType Scalar Color Bus ComponentOnMessageParams : Type.
Variable GetSocket : Bus → string → MessageResult * HSocket.
Variable Post : Bus → PostCall Point3 Quat LightType Scalar Color → MessageResult * Bus.
Variables dmHashString32 dmHashString64 : string → Z.
Variables sizeof_SetLight m_DDFDescriptor : Z.
Variable new_address : gmap ptr Object → ptr.

Local Abbreviation State := (State Point3 Quat LightType Scalar Color Bus).
Local Abbreviation Update :=
  (CompLightUpdate GetSocket Post dmHashString32 dmHashString64
     sizeof_SetLight m_DDFDescriptor).
Local Abbreviation Update_loop :=
  (CompLightUpdate_loop Post dmHashString32 sizeof_SetLight m_DDFDescriptor).
Local Abbreviation posted_for :=
  (posted_for dmHashString32 dmHashString64 sizeof_SetLight m_DDFDescriptor).
Local Abbreviation message_id := (u64 (dmHashString64 "set_light")).
Local Abbreviation data_size := (u32 (sizeof_SetLight + 9)).

Lemma same_scene_refl (st : State) : same_scene st st.
Proof. by repeat split. Qed.

Lemma same_scene_trans (st1 st2 st3 : State) :
  same_scene st1 st2 → same_scene st2 st3 → same_scene st1 st3.
Proof. unfold same_scene. intros (->&->&->&->) (->&->&->&->). done. Qed.

Lemma posted_for_same_scene (st st' : State) receiver l ev :
  same_scene st st' → posted_for st' receiver l ev → posted_for st receiver l ev.
Proof.
  intros (Hh & Hp & Hr & Hres) (light & Hl & Hc & Hid & Hrest).
  exists light. rewrite <- Hh. split; [done|].
  unfold carries_light, carries_id in *. rewrite Hp, Hr, Hres in Hc.
  rewrite Hres in Hid. done.
Qed.

Lemma fill_buffer_spec light buf (st : State) :
  length (buf_tail buf) = 9%nat →
  ∃ buf', fill_buffer dmHashString32 sizeof_SetLight light buf st = Returns buf' ∧
    length (buf_tail buf') = 9%nat ∧
    ∀ sender receiver id desc size,
      let c := {| post_sender := sender; post_receiver := receiver;
                  post_message_id := id; post_descriptor := desc;
                  post_data := buf'; post_data_size := size |} in
      carries_light st light c ∧
      carries_id dmHashString32 sizeof_SetLight st light c.
Proof.
  intros Hlen. unfold fill_buffer.
  rewrite (snprintf_X_u32 _ _ Hlen), bind_Returns.
  eexists. split; [reflexivity|].
  pose proof (format_X_length_u32
                (dmHashString32 (m_Id (resource st (m_LightResource light))))) as Hle.
  assert (Hlen' : length (format_X (u32 (dmHashString32
             (m_Id (resource st (m_LightResource light))))) ++
           NUL :: drop (S (length (format_X (u32 (dmHashString32
             (m_Id (resource st (m_LightResource light)))))))) (buf_tail buf)) = 9%nat).
  { rewrite length_app. simpl length. rewrite length_drop. lia. }
  split; [exact Hlen'|].
  intros sender receiver id desc size. split.
  - unfold carries_light. simpl. by repeat split.
  - unfold carries_id. simpl. split; [done|]. split; [exact Hlen'|].
    rewrite take_app_ge by lia.
    replace (S _ - _)%nat with 1%nat by lia. done.
Qed.

Lemma dmArray_At_lookup {T} (a : dmArray.t T) i x :
  dmArray.m_Elems a !! i = Some x → dmArray.At i a = Returns x.
Proof. intros H. unfold dmArray.At. by rewrite H. Qed.

Lemma load_world_live (st : State) w lw :
  heap st !! w = Some (OWorld lw) → load_world w st = Returns lw.
Proof. intros H. unfold load_world. by rewrite H. Qed.

Lemma load_light_live (st : State) l x :
  heap st !! l = Some (OLight x) → load_light l st = Returns x.
Proof. intros H. unfold load_light. by rewrite H. Qed.

(** The loop of CompLightUpdate: it returns; it only touches the message
    system and the log; the calls of Post it makes are for the lights from
    index [i] on, in order, and stop at the first failure. *)
Lemma Update_loop_spec w lw receiver : ∀ steps i buf (st : State),
  heap st !! w = Some (OWorld lw) →
  all_lights st (dmArray.m_Elems (m_Lights lw)) →
  (i + steps)%nat = length (dmArray.m_Elems (m_Lights lw)) →
  length (buf_tail buf) = 9%nat →
  ∃ r st' evs,
    Update_loop steps i w receiver message_id data_size buf st = Returns (r, st') ∧
    same_scene st st' ∧
    posted st' = posted st ++ evs ∧
    Forall2 (posted_for st receiver)
      (take (length evs) (drop i (dmArray.m_Elems (m_Lights lw)))) evs ∧
    (length evs <= steps)%nat ∧
    match r with
    | UPDATE_RESULT_OK =>
        length evs = steps ∧ Forall succeeded evs ∧ log st' = log st
    | UPDATE_RESULT_UNKNOWN_ERROR =>
        ∃ evs0 ev, evs = evs0 ++ [ev] ∧ Forall succeeded evs0 ∧ ¬ succeeded ev ∧
          log st' = log st ++ ["Could not send set_light message to @render."%string]
    end.
Proof.
  induction steps as [|steps IH]; intros i buf st Hw Hall Hlen Hbuf.
  - exists UPDATE_RESULT_OK, st, []. simpl.
    split; [done|]. split; [apply same_scene_refl|].
    split; [by rewrite app_nil_r|]. split; [constructor|]. split; [lia|].
    by repeat split.
  - destruct (lookup_lt_is_Some_2 (dmArray.m_Elems (m_Lights lw)) i) as [l Hl]; [lia|].
    pose proof Hall as Hall'. unfold all_lights in Hall'.
    rewrite Forall_lookup in Hall'. destruct (Hall' i l Hl) as [light Hlight].
    destruct (fill_buffer_spec light buf st Hbuf) as (buf' & Hfill & Hbuf' & Hcarry).
    simpl CompLightUpdate_loop.
    rewrite (load_world_live _ _ _ Hw), bind_Returns.
    rewrite (dmArray_At_lookup _ _ _ Hl), bind_Returns.
    rewrite (load_light_live _ _ _ Hlight), bind_Returns.
    rewrite Hfill, bind_Returns.
    unfold dmMessage_Post.
    set (c := {| post_sender := None; post_receiver := receiver;
                 post_message_id := message_id; post_descriptor := m_DDFDescriptor;
                 post_data := buf'; post_data_size := data_size |}).
    destruct (Post (bus st) c) as [result bus'] eqn:HPost.
    set (st1 := {| heap := heap st; position := position st; rotation := rotation st;
                   resource := resource st; bus := bus';
                   posted := posted st ++ [(c, result)]; log := log st |}).
    assert (Hfor : posted_for st receiver l (c, result)).
    { exists light. split; [done|]. destruct (Hcarry None receiver message_id
        m_DDFDescriptor data_size) as [H1 H2].
      split; [exact H1|]. split; [exact H2|]. by repeat split. }
    assert (Hdrop : drop i (dmArray.m_Elems (m_Lights lw)) =
                    l :: drop (S i) (dmArray.m_Elems (m_Lights lw))).
    { by apply drop_S. }
    assert (Hscene1 : same_scene st st1) by by repeat split.
    destruct result as [|code]; simpl negb; cbv iota.
    + destruct (IH (S i) buf' st1) as (r & st' & evs & Hrun & Hscene & Hposted & Hall2 & Hle & Hr);
        [done|done|lia|done|].
      exists r, st', ((c, RESULT_OK) :: evs).
      split; [exact Hrun|]. split; [exact (same_scene_trans _ _ _ Hscene1 Hscene)|].
      split. { rewrite Hposted. simpl. by rewrite <- app_assoc. }
      split. { rewrite Hdrop. simpl. constructor; [done|].
               eapply Forall2_impl; [exact Hall2|].
               intros ? ? ?. by apply (posted_for_same_scene st st1). }
      split; [simpl; lia|].
      destruct r.
      * destruct Hr as (Hn & Hok & Hlog). split; [simpl; lia|].
        split; [by constructor|]. done.
      * destruct Hr as (evs0 & ev & -> & Hok & Hfail & Hlog).
        exists ((c, RESULT_OK) :: evs0), ev.
        split; [done|]. split; [by constructor|]. done.
    + exists UPDATE_RESULT_UNKNOWN_ERROR,
        (dmLogError "Could not send set_light message to @render." st1),
        [(c, RESULT_ERROR code)].
      split; [done|]. split; [by repeat split|]. split; [done|].
      split. { rewrite Hdrop. simpl. by repeat constructor. }
      split; [simpl; lia|].
      exists [], (c, RESULT_ERROR code). by repeat split.
Qed.

(** CompLightUpdate when the socket is found. *)
Lemma Update_spec (st : State) params stack lw socket :
  heap st !! ComponentsUpdateParams.m_World params = Some (OWorld lw) →
  all_lights st (dmArray.m_Elems (m_Lights lw)) →
  GetSocket (bus st) "@render" = (RESULT_OK, socket) →
  ∃ r st' evs,
    Update params stack st = Returns (r, st') ∧
    same_scene st st' ∧
    posted st' = posted st ++ evs ∧
    Forall2 (posted_for st {| m_Socket := socket |})
      (take (length evs) (dmArray.m_Elems (m_Lights lw))) evs ∧
    (length evs <= length (dmArray.m_Elems (m_Lights lw)))%nat ∧
    match r with
    | UPDATE_RESULT_OK =>
        length evs = length (dmArray.m_Elems (m_Lights lw)) ∧
        Forall succeeded evs ∧ log st' = log st
    | UPDATE_RESULT_UNKNOWN_ERROR =>
        ∃ evs0 ev, evs = evs0 ++ [ev] ∧ Forall succeeded evs0 ∧ ¬ succeeded ev ∧
          log st' = log st ++ ["Could not send set_light message to @render."%string]
    end.
Proof.
  intros Hw Hall Hsock. unfold CompLightUpdate.
  rewrite Hsock. simpl negb. cbv iota.
  rewrite (load_world_live _ _ _ Hw), bind_Returns.
  destruct (Update_loop_spec (ComponentsUpdateParams.m_World params) lw
              {| m_Socket := socket |}
              (dmArray.Size (m_Lights lw)) 0
              {| buf_set_light := stack_set_light stack;
                 buf_tail := vec_to_list (stack_tail stack) |}
              st Hw Hall eq_refl (length_vec_to_list _))
    as (r & st' & evs & Hrun & Hscene & Hposted & Hall2 & Hle & Hr).
  exists r, st', evs. done.
Qed.

(** CompLightUpdate when the socket is not found. *)
Lemma Update_no_socket (st : State) params stack :
  (GetSocket (bus st) "@render").1 ≠ RESULT_OK →
  Update params stack st =
    Returns (UPDATE_RESULT_UNKNOWN_ERROR,
             dmLogError "Could not find the socket @render." st).
Proof.
  intros Hne. unfold CompLightUpdate.
  destruct (GetSocket (bus st) "@render") as [[|code] socket]; [done|]. done.
Qed.

Lemma Forall2_take_lookup {A B} (P : A → B → Prop) (l : list A) (k : list B) j y :
  Forall2 P (take (length k) l) k → k !! j = Some y →
  ∃ x, l !! j = Some x ∧ P x y.
Proof.
  intros HF Hk.
  destruct (Forall2_lookup_r _ _ _ _ _ HF Hk) as (x & Hx & HP).
  exists x. split; [|done]. by apply lookup_take_Some in Hx as [? _].
Qed.

(** C1, amended: every call of CompLightUpdate that finds the "@render"
    socket returns, and the calls of Post it makes are for the lights of
    the world's list, in the order of the list, from the first light on
    and without a gap; the message of each carries the position and
    rotation of the light's game object and the type, intensity, color,
    range, decay, cone angle, penumbra angle and drop-off of its
    descriptor; when every one of these posts succeeded, there is one for
    every light of the list and the result is UPDATE_RESULT_OK.  (As
    written, without the two conditions, the claim fails: a call that does
    not find the socket posts nothing, and a call stops at the first post
    that fails.) *)
Theorem CompLightUpdate_posts_every_light (st : State) params stack lw socket :
  heap st !! ComponentsUpdateParams.m_World params = Some (OWorld lw) →
  all_lights st (dmArray.m_Elems (m_Lights lw)) →
  GetSocket (bus st) "@render" = (RESULT_OK, socket) →
  ∃ r st' evs,
    Update params stack st = Returns (r, st') ∧
    posted st' = posted st ++ evs ∧
    Forall2 (fun l ev => ∃ light, heap st !! l = Some (OLight light) ∧
                                  carries_light st light ev.1)
      (take (length evs) (dmArray.m_Elems (m_Lights lw))) evs ∧
    (Forall succeeded evs →
     length evs = length (dmArray.m_Elems (m_Lights lw)) ∧ r = UPDATE_RESULT_OK).
Proof.
  intros Hw Hall Hsock.
  destruct (Update_spec st params stack lw socket Hw Hall Hsock)
    as (r & st' & evs & Hrun & _ & Hposted & Hall2 & _ & Hr).
  exists r, st', evs. split; [done|]. split; [done|]. split.
  - eapply Forall2_impl; [exact Hall2|].
    intros l ev (light & Hl & Hc & _). by exists light.
  - intros Hok. destruct r.
    + by destruct Hr as (-> & _).
    + destruct Hr as (evs0 & ev & -> & _ & Hfail & _).
      apply Forall_app in Hok as [_ Hok]. by inversion Hok.
Qed.

(** C2: every message CompLightUpdate posts goes to the socket that
    GetSocket returns for "@render", with the 64-bit hash of "set_light"
    as message id; when the lookup of "@render" fails, the result is
    UPDATE_RESULT_UNKNOWN_ERROR and nothing is posted (only the error is
    logged). *)
Theorem CompLightUpdate_render_socket (st : State) params stack :
  (∀ lw socket,
     heap st !! ComponentsUpdateParams.m_World params = Some (OWorld lw) →
     all_lights st (dmArray.m_Elems (m_Lights lw)) →
     GetSocket (bus st) "@render" = (RESULT_OK, socket) →
     ∃ r st' evs,
       Update params stack st = Returns (r, st') ∧
       posted st' = posted st ++ evs ∧
       Forall (fun ev => post_receiver ev.1 = {| m_Socket := socket |} ∧
                         post_message_id ev.1 = u64 (dmHashString64 "set_light"))
         evs) ∧
  ((GetSocket (bus st) "@render").1 ≠ RESULT_OK →
   ∃ st', Update params stack st = Returns (UPDATE_RESULT_UNKNOWN_ERROR, st') ∧
          posted st' = posted st ∧ bus st' = bus st ∧ heap st' = heap st ∧
          log st' = log st ++ ["Could not find the socket @render."%string]).
Proof.
  split.
  - intros lw socket Hw Hall Hsock.
    destruct (Update_spec st params stack lw socket Hw Hall Hsock)
      as (r & st' & evs & Hrun & _ & Hposted & Hall2 & _).
    exists r, st', evs. split; [done|]. split; [done|].
    apply Forall_lookup. intros j ev Hev.
    destruct (Forall2_take_lookup _ _ _ _ _ Hall2 Hev)
      as (l & _ & light & _ & _ & _ & _ & Hrecv & Hid & _).
    done.
  - intros Hne. rewrite (Update_no_socket st params stack Hne).
    eexists. split; [reflexivity|]. done.
Qed.

(** C4: in every message of CompLightUpdate the id of the light is the
    string at the start of the 9-byte tail behind the SetLight struct: the
    upper-case hexadecimal digits of the 32-bit hash of the descriptor's id
    string; and [m_Id] holds the offset sizeof(SetLight) of that tail. *)
Theorem CompLightUpdate_light_id (st : State) params stack lw socket :
  heap st !! ComponentsUpdateParams.m_World params = Some (OWorld lw) →
  all_lights st (dmArray.m_Elems (m_Lights lw)) →
  GetSocket (bus st) "@render" = (RESULT_OK, socket) →
  ∃ r st' evs,
    Update params stack st = Returns (r, st') ∧
    posted st' = posted st ++ evs ∧
    Forall2 (fun l ev =>
               ∃ light, heap st !! l = Some (OLight light) ∧
                 let hash := u32 (dmHashString32
                                    (m_Id (resource st (m_LightResource light)))) in
                 let tail := buf_tail (post_data ev.1) in
                 length tail = 9%nat ∧
                 c_str tail = format_X hash ∧
                 Forall is_hex_upper (c_str tail) ∧
                 hex_value (c_str tail) = hash ∧
                 m_Id (m_Light (buf_set_light (post_data ev.1))) = sizeof_SetLight)
      (take (length evs) (dmArray.m_Elems (m_Lights lw))) evs.
Proof.
  intros Hw Hall Hsock.
  destruct (Update_spec st params stack lw socket Hw Hall Hsock)
    as (r & st' & evs & Hrun & _ & Hposted & Hall2 & _).
  exists r, st', evs. split; [done|]. split; [done|].
  eapply Forall2_impl; [exact Hall2|].
  intros l ev (light & Hl & _ & (Hid & Hlen & Htake) & _).
  exists light. split; [done|]. cbv zeta.
  set (hash := u32 (dmHashString32 (m_Id (resource st (m_LightResource light))))) in *.
  destruct (format_X_spec hash) as [Hhex Hval].
  { unfold hash, u32. apply Z.mod_pos_bound. lia. }
  assert (Hc : c_str (buf_tail (post_data ev.1)) = format_X hash).
  { rewrite <- (take_drop (S (length (format_X hash))) (buf_tail (post_data ev.1))).
    rewrite Htake, <- app_assoc. simpl. by apply c_str_app_NUL. }
  rewrite Hc. done.
Qed.

(** C5: the buffer CompLightUpdate posts has one size for every light,
    sizeof(SetLight) + 9, with a tail of 9 bytes, and the write of the id
    into the tail never truncates: for every message, the "%X" conversion
    of the 32-bit hash of its light's id has at most 8 characters and is
    in the tail in full, followed by its NUL, so that the string read back
    from the message has the value of the hash.  (In general, snprintf with
    size 9 stores the conversion of any 32-bit value whole.) *)
Theorem CompLightUpdate_buffer_fixed_size (st : State) params stack lw socket :
  0 <= sizeof_SetLight < 2 ^ 32 - 9 →
  heap st !! ComponentsUpdateParams.m_World params = Some (OWorld lw) →
  all_lights st (dmArray.m_Elems (m_Lights lw)) →
  GetSocket (bus st) "@render" = (RESULT_OK, socket) →
  (∃ r st' evs,
     Update params stack st = Returns (r, st') ∧
     posted st' = posted st ++ evs ∧
     Forall2 (fun l ev =>
                ∃ light, heap st !! l = Some (OLight light) ∧
                  let hash := u32 (dmHashString32
                                     (m_Id (resource st (m_LightResource light)))) in
                  let conversion := format_X hash in
                  let tail := buf_tail (post_data ev.1) in
                  post_data_size ev.1 = sizeof_SetLight + 9 ∧
                  length tail = 9%nat ∧
                  (length conversion <= 8)%nat ∧
                  take (S (length conversion)) tail = conversion ++ [NUL] ∧
                  hex_value (c_str tail) = hash)
       (take (length evs) (dmArray.m_Elems (m_Lights lw))) evs) ∧
  (∀ id dst, length dst = 9%nat →
     let conversion := format_X (u32 (dmHashString32 id)) in
     (length conversion <= 8)%nat ∧
     snprintf_X dst 9 (u32 (dmHashString32 id)) =
       Returns (conversion ++ NUL :: drop (S (length conversion)) dst,
                length conversion)).
Proof.
  intros Hsize Hw Hall Hsock. split.
  - destruct (Update_spec st params stack lw socket Hw Hall Hsock)
      as (r & st' & evs & Hrun & _ & Hposted & Hall2 & _).
    exists r, st', evs. split; [done|]. split; [done|].
    eapply Forall2_impl; [exact Hall2|].
    intros l ev (light & Hl & _ & (_ & Hlen & Htake) & _ & _ & _ & _ & Hds).
    exists light. split; [done|]. cbv zeta.
    set (hash := u32 (dmHashString32 (m_Id (resource st (m_LightResource light))))) in *.
    destruct (format_X_spec hash) as [Hhex Hval].
    { unfold hash, u32. apply Z.mod_pos_bound. lia. }
    split. { rewrite Hds. unfold u32. apply Z.mod_small. lia. }
    split; [done|]. split; [apply format_X_length_u32|]. split; [done|].
    rewrite <- (take_drop (S (length (format_X hash))) (buf_tail (post_data ev.1))).
    rewrite Htake, <- app_assoc. simpl. by rewrite (c_str_app_NUL _ _ Hhex).
  - intros id dst Hdst. cbv zeta. split; [apply format_X_length_u32|].
    by apply snprintf_X_u32.
Qed.

(** C8: when a call of Post fails in CompLightUpdate, it is the last one:
    if the post for the light at index [i] fails, the result is
    UPDATE_RESULT_UNKNOWN_ERROR, the posts for the [i] lights before it
    were made and succeeded (they are not taken back), and no message is
    posted for the light at index [i] or a later one. *)
Theorem CompLightUpdate_stops_at_failure (st : State) params stack lw socket :
  heap st !! ComponentsUpdateParams.m_World params = Some (OWorld lw) →
  all_lights st (dmArray.m_Elems (m_Lights lw)) →
  GetSocket (bus st) "@render" = (RESULT_OK, socket) →
  ∃ r st' evs,
    Update params stack st = Returns (r, st') ∧
    posted st' = posted st ++ evs ∧
    Forall2 (posted_for st {| m_Socket := socket |})
      (take (length evs) (dmArray.m_Elems (m_Lights lw))) evs ∧
    ∀ i ev, evs !! i = Some ev → ¬ succeeded ev →
      r = UPDATE_RESULT_UNKNOWN_ERROR ∧
      length evs = S i ∧
      Forall succeeded (take i evs) ∧
      (∀ j ev', evs !! j = Some ev' → succeeded ev' → (j < i)%nat) ∧
      (i < length (dmArray.m_Elems (m_Lights lw)))%nat ∧
      log st' = log st ++ ["Could not send set_light message to @render."%string].
Proof.
  intros Hw Hall Hsock.
  destruct (Update_spec st params stack lw socket Hw Hall Hsock)
    as (r & st' & evs & Hrun & _ & Hposted & Hall2 & Hle & Hr).
  exists r, st', evs. split; [done|]. split; [done|]. split; [done|].
  intros i ev Hev Hfail. destruct r.
  - destruct Hr as (_ & Hok & _). rewrite Forall_lookup in Hok.
    by specialize (Hok i ev Hev).
  - destruct Hr as (evs0 & ev' & -> & Hok & Hfail' & Hlog).
    assert (Hi : i = length evs0).
    { destruct (decide (i < length evs0)%nat) as [Hlt|Hge].
      - rewrite lookup_app_l in Hev by done. rewrite Forall_lookup in Hok.
        by specialize (Hok i ev Hev).
      - apply lookup_lt_Some in Hev. rewrite length_app in Hev. simpl in Hev. lia. }
    subst i. rewrite length_app in *. simpl in *.
    split; [done|]. split; [lia|]. split; [by rewrite take_app_length|].
    split; [|split; [lia|done]].
    intros j ev'' Hj Hok''.
    destruct (decide (j < length evs0)%nat) as [Hlt|Hge]; [done|].
    assert (j = length evs0) as ->.
    { apply lookup_lt_Some in Hj. rewrite length_app in Hj. simpl in Hj. lia. }
    rewrite list_lookup_middle in Hj by done. injection Hj as <-. done.
Qed.

(** ** Creating and destroying *)

Lemma erase_swap_Permutation (elems : list ptr) i x back :
  elems !! i = Some x → last elems = Some back →
  x :: take (length elems - 1) (<[i := back]> elems) ≡ₚ elems.
Proof.
  intros Hi Hlast. apply last_Some in Hlast as [front ->].
  rewrite length_app. simpl length. rewrite Nat.add_sub.
  destruct (decide (i < length front)%nat) as [Hlt|Hge].
  - rewrite lookup_app_l in Hi by done.
    rewrite insert_app_l by done.
    rewrite take_app_length' by (by rewrite length_insert).
    apply list_elem_of_split_length in Hi as (a & b & -> & ->).
    replace (length a) with (length a + 0)%nat by lia.
    rewrite insert_app_r. simpl.
    rewrite <- !app_assoc. simpl.
    rewrite <- !Permutation_middle. apply perm_skip.
    by rewrite app_nil_r.
  - assert (i = length front) as ->.
    { apply lookup_lt_Some in Hi. rewrite length_app in Hi. simpl in Hi. lia. }
    rewrite list_lookup_middle in Hi by done. injection Hi as <-.
    rewrite list_insert_id by (by rewrite list_lookup_middle).
    rewrite take_app_length. apply Permutation_cons_append.
Qed.

Lemma erase_swap_elem_of (elems : list ptr) i x back y :
  NoDup elems → elems !! i = Some x → last elems = Some back →
  y ∈ take (length elems - 1) (<[i := back]> elems) ↔ y ∈ elems ∧ y ≠ x.
Proof.
  intros Hnd Hi Hlast.
  pose proof (erase_swap_Permutation elems i x back Hi Hlast) as Hperm.
  rewrite <- Hperm in Hnd. apply NoDup_cons in Hnd as [Hx _].
  assert (Hiff : y ∈ elems ↔ y = x ∨ y ∈ take (length elems - 1) (<[i := back]> elems)).
  { rewrite <- elem_of_cons. by rewrite Hperm. }
  rewrite Hiff. split.
  - intros Hy. split; [by right|]. by intros ->.
  - intros [[->|Hy] Hne]; done.
Qed.

Lemma erase_swap_NoDup (elems : list ptr) i x back :
  NoDup elems → elems !! i = Some x → last elems = Some back →
  NoDup (take (length elems - 1) (<[i := back]> elems)).
Proof.
  intros Hnd Hi Hlast.
  rewrite <- (erase_swap_Permutation elems i x back Hi Hlast) in Hnd.
  by apply NoDup_cons in Hnd as [_ ?].
Qed.

Lemma EraseSwap_lookup (a : dmArray.t ptr) i x :
  dmArray.m_Elems a !! i = Some x →
  ∃ back, last (dmArray.m_Elems a) = Some back ∧
          dmArray.EraseSwap i a = Returns (erase_swap i back a).
Proof.
  intros Hi. unfold dmArray.EraseSwap, dmArray.Size.
  pose proof (lookup_lt_Some _ _ _ Hi) as Hlt.
  destruct (Nat.ltb_spec i (length (dmArray.m_Elems a))) as [_|]; [|lia].
  destruct (last (dmArray.m_Elems a)) as [back|] eqn:Hlast.
  - by exists back.
  - apply last_None in Hlast. rewrite Hlast in Hlt. simpl in Hlt. lia.
Qed.

(** The state after CompLightDestroy found [light] at index [i]. *)
Lemma Destroy_loop_found (st : State) w lw light x i :
  heap st !! w = Some (OWorld lw) →
  heap st !! light = Some (OLight x) →
  dmArray.m_Elems (m_Lights lw) !! i = Some light →
  (∀ j, (j < i)%nat → dmArray.m_Elems (m_Lights lw) !! j ≠ Some light) →
  ∀ steps j, (j + steps)%nat = length (dmArray.m_Elems (m_Lights lw)) → (j <= i)%nat →
  ∃ back, last (dmArray.m_Elems (m_Lights lw)) = Some back ∧
    CompLightDestroy_loop steps j light w st =
      Returns (CREATE_RESULT_OK,
               set_heap (delete light
                           (<[w := OWorld {| m_Lights := erase_swap i back (m_Lights lw) |}]>
                              (heap st))) st).
Proof.
  intros Hw Hlight Hi Hfirst.
  assert (Hne : light ≠ w) by (intros ->; congruence).
  induction steps as [|steps IH]; intros j Hlen Hle.
  - apply lookup_lt_Some in Hi. lia.
  - simpl CompLightDestroy_loop.
    rewrite (load_world_live _ _ _ Hw), bind_Returns.
    destruct (decide (j = i)) as [->|Hji].
    + rewrite (dmArray_At_lookup _ _ _ Hi), bind_Returns.
      rewrite decide_True by done.
      destruct (EraseSwap_lookup _ _ _ Hi) as (back & Hlast & ->).
      exists back. split; [done|]. rewrite bind_Returns.
      unfold store_world. rewrite (load_world_live _ _ _ Hw), !bind_Returns.
      unfold delete_light, load_light. simpl heap.
      rewrite lookup_insert_ne by done. rewrite Hlight. done.
    + destruct (lookup_lt_is_Some_2 (dmArray.m_Elems (m_Lights lw)) j) as [y Hy]; [lia|].
      rewrite (dmArray_At_lookup _ _ _ Hy), bind_Returns.
      rewrite decide_False.
      * apply IH; lia.
      * intros ->. apply (Hfirst j); [lia|done].
Qed.

(** Falling out of the loop: the light is not in the list. *)
Lemma Destroy_loop_not_found (st : State) w lw light :
  heap st !! w = Some (OWorld lw) →
  ∀ steps j, (j + steps)%nat = length (dmArray.m_Elems (m_Lights lw)) →
  light ∉ drop j (dmArray.m_Elems (m_Lights lw)) →
  CompLightDestroy_loop steps j light w st = AssertionFailed.
Proof.
  intros Hw. induction steps as [|steps IH]; intros j Hlen Hnot; [done|].
  simpl CompLightDestroy_loop.
  rewrite (load_world_live _ _ _ Hw), bind_Returns.
  destruct (lookup_lt_is_Some_2 (dmArray.m_Elems (m_Lights lw)) j) as [y Hy]; [lia|].
  rewrite (dmArray_At_lookup _ _ _ Hy), bind_Returns.
  rewrite (drop_S _ _ _ Hy) in Hnot. apply not_elem_of_cons in Hnot as [Hne Hnot].
  rewrite decide_False by done. apply IH; [lia|done].
Qed.

Lemma first_index (elems : list ptr) light :
  light ∈ elems →
  ∃ i, elems !! i = Some light ∧ ∀ j, (j < i)%nat → elems !! j ≠ Some light.
Proof.
  induction elems as [|y elems IH]; intros Hin; [by apply elem_of_nil in Hin|].
  destruct (decide (y = light)) as [->|Hne].
  - exists 0%nat. split; [done|]. intros j Hj. lia.
  - apply elem_of_cons in Hin as [->|Hin]; [done|].
    destruct (IH Hin) as (i & Hi & Hfirst). exists (S i). split; [done|].
    intros [|j] Hj; simpl; [congruence|]. apply Hfirst. lia.
Qed.

(** CompLightDestroy on a light of the world's list. *)
Lemma Destroy_spec (st : State) params lw x :
  let w := ComponentDestroyParams.m_World params in
  let light := ComponentDestroyParams.m_UserData params in
  heap st !! w = Some (OWorld lw) →
  heap st !! light = Some (OLight x) →
  light ∈ dmArray.m_Elems (m_Lights lw) →
  ∃ i back,
    dmArray.m_Elems (m_Lights lw) !! i = Some light ∧
    (∀ j, (j < i)%nat → dmArray.m_Elems (m_Lights lw) !! j ≠ Some light) ∧
    last (dmArray.m_Elems (m_Lights lw)) = Some back ∧
    CompLightDestroy params st =
      Returns (CREATE_RESULT_OK,
               set_heap (delete light
                           (<[w := OWorld {| m_Lights := erase_swap i back (m_Lights lw) |}]>
                              (heap st))) st).
Proof.
  intros w light Hw Hlight Hin.
  destruct (first_index _ _ Hin) as (i & Hi & Hfirst).
  destruct (Destroy_loop_found st w lw light x i Hw Hlight Hi Hfirst
              (dmArray.Size (m_Lights lw)) 0 eq_refl ltac:(lia)) as (back & Hlast & Hrun).
  exists i, back. split; [done|]. split; [done|]. split; [done|].
  unfold CompLightDestroy. fold w. fold light.
  by rewrite (load_world_live _ _ _ Hw), bind_Returns.
Qed.

Lemma Destroy_not_found (st : State) params lw :
  heap st !! ComponentDestroyParams.m_World params = Some (OWorld lw) →
  ComponentDestroyParams.m_UserData params ∉ dmArray.m_Elems (m_Lights lw) →
  CompLightDestroy params st = AssertionFailed.
Proof.
  intros Hw Hnot. unfold CompLightDestroy.
  rewrite (load_world_live _ _ _ Hw), bind_Returns.
  by apply (Destroy_loop_not_found st _ lw).
Qed.

(** operator new returns the address of storage that no live object
    occupies. *)
Hypothesis new_address_fresh : ∀ h, h !! new_address h = None.

Local Abbreviation NewWorld_ := (CompLightNewWorld new_address).
Local Abbreviation Create_ := (CompLightCreate new_address).

(** The array after the capacity check and the push of CompLightCreate. *)
Lemma Create_spec (st : State) params lw :
  let w := ComponentCreateParams.m_World params in
  heap st !! w = Some (OWorld lw) →
  dmArray.wf (m_Lights lw) →
  ∃ light st' lw',
    Create_ params st = Returns (CREATE_RESULT_OK, light, st') ∧
    heap st !! light = None ∧
    same_engine st st' ∧
    heap st' !! w = Some (OWorld lw') ∧
    heap st' !! light =
      Some (OLight {| m_Instance := ComponentCreateParams.m_Instance params;
                      m_LightResource := ComponentCreateParams.m_Resource params |}) ∧
    (∀ p, p ≠ w → p ≠ light → heap st' !! p = heap st !! p) ∧
    dmArray.m_Elems (m_Lights lw') = dmArray.m_Elems (m_Lights lw) ++ [light] ∧
    dmArray.Capacity (m_Lights lw') =
      (if dmArray.Full (m_Lights lw)
       then dmArray.Capacity (m_Lights lw) + 16
       else dmArray.Capacity (m_Lights lw))%nat ∧
    dmArray.wf (m_Lights lw').
Proof.
  intros w Hw Hwf. unfold CompLightCreate. fold w.
  rewrite (load_world_live _ _ _ Hw), bind_Returns.
  set (a1 := if dmArray.Full (m_Lights lw)
             then dmArray.OffsetCapacity 16 (m_Lights lw) else m_Lights lw).
  set (st1 := if dmArray.Full (m_Lights lw)
              then set_heap (<[w := OWorld {| m_Lights := a1 |}]> (heap st)) st
              else st).
  assert (Hst1 : (if dmArray.Full (m_Lights lw)
                  then store_world w
                         {| m_Lights := dmArray.OffsetCapacity 16 (m_Lights lw) |} st
                  else mret st) = Returns st1).
  { unfold st1, a1. destruct (dmArray.Full (m_Lights lw)); [|done].
    unfold store_world. by rewrite (load_world_live _ _ _ Hw), !bind_Returns. }
  rewrite Hst1, bind_Returns.
  assert (Hw1 : heap st1 !! w = Some (OWorld {| m_Lights := a1 |})).
  { unfold st1, a1. destruct (dmArray.Full (m_Lights lw)).
    - simpl. by rewrite lookup_insert_eq.
    - rewrite Hw. by destruct lw. }
  assert (Hother1 : ∀ p, p ≠ w → heap st1 !! p = heap st !! p).
  { intros p Hp. unfold st1. destruct (dmArray.Full (m_Lights lw)); [|done].
    simpl. by rewrite lookup_insert_ne. }
  assert (Heng1 : same_engine st st1).
  { unfold st1. destruct (dmArray.Full (m_Lights lw)); by repeat split. }
  unfold new_object.
  set (light := new_address (heap st1)).
  pose proof (new_address_fresh (heap st1)) as Hfresh. fold light in Hfresh.
  assert (Hne : light ≠ w) by (intros Heq; rewrite Heq in Hfresh; congruence).
  unfold load_world at 1. simpl heap.
  rewrite lookup_insert_ne by done. rewrite Hw1, bind_Returns. simpl m_Lights.
  assert (Hroom : (0 < dmArray.Capacity a1 - dmArray.Size a1)%nat).
  { unfold a1, dmArray.wf, dmArray.Full in *.
    destruct (Nat.eqb_spec (dmArray.Size (m_Lights lw)) (dmArray.Capacity (m_Lights lw))).
    - unfold dmArray.OffsetCapacity, dmArray.Capacity, dmArray.Size in *. simpl. lia.
    - lia. }
  unfold dmArray.Push.
  destruct (Nat.ltb_spec 0 (dmArray.Capacity a1 - dmArray.Size a1)) as [_|]; [|lia].
  rewrite bind_Returns. unfold store_world, load_world. simpl heap.
  rewrite lookup_insert_ne by done. rewrite Hw1, !bind_Returns.
  eexists light, _, _. split; [reflexivity|].
  split. { rewrite <- (Hother1 light) by done. done. }
  split. { destruct Heng1 as (?&?&?&?&?&?). by repeat split. }
  simpl heap. split; [by rewrite lookup_insert_eq|].
  split. { rewrite lookup_insert_ne by done. by rewrite lookup_insert_eq. }
  split. { intros p Hp1 Hp2. rewrite !lookup_insert_ne by done. by apply Hother1. }
  simpl. unfold a1, dmArray.Full, dmArray.wf, dmArray.Capacity, dmArray.Size in *.
  destruct (Nat.eqb_spec (length (dmArray.m_Elems (m_Lights lw)))
                         (dmArray.m_Capacity (m_Lights lw))); simpl;
    (split; [done|]); (split; [done|]); rewrite length_app; simpl.
  all: unfold dmArray.Capacity, dmArray.Size in *; simpl in *; lia.
Qed.

Lemma NewWorld_spec (st : State) :
  ∃ w st',
    NewWorld_ st = Returns (CREATE_RESULT_OK, w, st') ∧
    heap st !! w = None ∧
    same_engine st st' ∧
    heap st' = <[w := OWorld {| m_Lights := dmArray.empty |}]> (heap st).
Proof.
  unfold CompLightNewWorld, new_object.
  eexists _, _. split; [reflexivity|]. split; [apply new_address_fresh|].
  by repeat split.
Qed.

Lemma DeleteWorld_spec (st : State) params lw :
  heap st !! ComponentDeleteWorldParams.m_World params = Some (OWorld lw) →
  CompLightDeleteWorld params st =
    Returns (CREATE_RESULT_OK,
             set_heap (delete (ComponentDeleteWorldParams.m_World params) (heap st)) st).
Proof.
  intros Hw. unfold CompLightDeleteWorld, delete_world.
  by rewrite (load_world_live _ _ _ Hw), !bind_Returns.
Qed.

(** ** The invariant of a run *)

Lemma all_lights_frame (st st' : State) elems :
  (∀ x, x ∈ elems → heap st' !! x = heap st !! x) →
  all_lights st elems → all_lights st' elems.
Proof.
  intros Hsame Hall. unfold all_lights in *. rewrite Forall_forall in *.
  intros x Hx. rewrite (Hsame x Hx). by apply Hall.
Qed.

Lemma all_lights_not_world (st : State) elems w lw x :
  all_lights st elems → heap st !! w = Some (OWorld lw) → x ∈ elems → x ≠ w.
Proof.
  intros Hall Hw Hx ->. unfold all_lights in Hall. rewrite Forall_forall in Hall.
  destruct (Hall w Hx) as [y Hy]. congruence.
Qed.

Lemma all_lights_live (st : State) elems x :
  all_lights st elems → x ∈ elems → ∃ y, heap st !! x = Some (OLight y).
Proof. intros Hall Hx. unfold all_lights in Hall. rewrite Forall_forall in Hall. auto. Qed.

Lemma all_lights_not_free (st : State) elems x :
  all_lights st elems → heap st !! x = None → x ∉ elems.
Proof.
  intros Hall Hfree Hx. destruct (all_lights_live st elems x Hall Hx) as [y Hy]. congruence.
Qed.

Lemma invariant_same_heap (st st' : State) live :
  heap st' = heap st → invariant st live → invariant st' live.
Proof.
  intros Hh [Hworlds Hdisj]. split.
  - intros w lw Hw. rewrite Hh in Hw.
    destruct (Hworlds w lw Hw) as (Hwf & Hnd & Hall & Hlive).
    repeat split; try done.
    apply (all_lights_frame st); [|done]. intros. by rewrite Hh.
  - intros w1 w2 lw1 lw2 x Hne H1 H2. rewrite Hh in H1, H2. by eapply Hdisj.
Qed.

Lemma invariant_start (st : State) : no_objects st → invariant st ∅.
Proof.
  unfold no_objects. intros Hempty. split.
  - intros w lw Hw. rewrite Hempty, lookup_empty in Hw. done.
  - intros w1 w2 lw1 lw2 x _ H1. rewrite Hempty, lookup_empty in H1. done.
Qed.

Lemma invariant_NewWorld (st : State) live w :
  heap st !! w = None →
  invariant st live →
  invariant (set_heap (<[w := OWorld {| m_Lights := dmArray.empty |}]> (heap st)) st)
            (<[w := ∅]> live).
Proof.
  intros Hfree [Hworlds Hdisj]. split.
  - intros w' lw'. simpl heap. rewrite lookup_insert.
    destruct (decide (w = w')) as [<-|Hne].
    + intros [= <-].
      split; [unfold dmArray.wf, dmArray.Size, dmArray.Capacity; simpl; lia|].
      split; [constructor|]. split; [constructor|].
      exists ∅. split; [by rewrite lookup_insert_eq|]. simpl. intros x.
      split; [by intros ?%elem_of_nil|by intros ?%elem_of_empty].
    + intros Hw'. destruct (Hworlds w' lw' Hw') as (Hwf & Hnd & Hall & s & Hs & Hiff).
      split; [done|]. split; [done|]. split.
      * apply (all_lights_frame st); [|done]. intros x Hx. simpl.
        rewrite lookup_insert_ne; [done|]. intros <-.
        by apply (all_lights_not_free st _ w Hall).
      * exists s. by rewrite lookup_insert_ne.
  - intros w1 w2 lw1 lw2 x Hne. simpl heap. rewrite !lookup_insert.
    destruct (decide (w = w1)) as [<-|Hne1]; destruct (decide (w = w2)) as [<-|Hne2];
      try done.
    + intros [= <-] _ Hx. by apply elem_of_nil in Hx.
    + intros _ [= <-] _ Hx. by apply elem_of_nil in Hx.
    + by apply Hdisj.
Qed.

Lemma invariant_DeleteWorld (st : State) live w lw :
  heap st !! w = Some (OWorld lw) →
  invariant st live →
  invariant (set_heap (delete w (heap st)) st) (delete w live).
Proof.
  intros Hw [Hworlds Hdisj]. split.
  - intros w' lw'. simpl heap. rewrite lookup_delete.
    destruct (decide (w = w')) as [<-|Hne]; [done|].
    intros Hw'. destruct (Hworlds w' lw' Hw') as (Hwf & Hnd & Hall & s & Hs & Hiff).
    split; [done|]. split; [done|]. split.
    + apply (all_lights_frame st); [|done]. intros x Hx. simpl.
      rewrite lookup_delete_ne; [done|]. intros <-.
      by apply (all_lights_not_world st _ w lw w Hall).
    + exists s. by rewrite lookup_delete_ne.
  - intros w1 w2 lw1 lw2 x Hne. simpl heap. rewrite !lookup_delete.
    destruct (decide (w = w1)); [done|]. destruct (decide (w = w2)); [done|].
    by apply Hdisj.
Qed.

Lemma invariant_Create (st st' : State) live w lw lw' light l :
  heap st !! w = Some (OWorld lw) →
  heap st !! light = None →
  heap st' !! w = Some (OWorld lw') →
  heap st' !! light = Some (OLight l) →
  (∀ p, p ≠ w → p ≠ light → heap st' !! p = heap st !! p) →
  dmArray.m_Elems (m_Lights lw') = dmArray.m_Elems (m_Lights lw) ++ [light] →
  dmArray.wf (m_Lights lw') →
  invariant st live →
  invariant st' (alter (fun s => {[light]} ∪ s) w live).
Proof.
  intros Hw Hfree Hw' Hl Hother Helems Hwf' [Hworlds Hdisj].
  assert (Hne : light ≠ w) by (intros ->; congruence).
  assert (Hkeep : ∀ w0 lw0 x, heap st !! w0 = Some (OWorld lw0) →
            x ∈ dmArray.m_Elems (m_Lights lw0) → heap st' !! x = heap st !! x).
  { intros w0 lw0 x Hw0 Hx.
    destruct (Hworlds w0 lw0 Hw0) as (_ & _ & Hall & _).
    apply Hother.
    - by apply (all_lights_not_world st _ w lw x Hall).
    - intros ->. by apply (all_lights_not_free st _ light Hall). }
  assert (Hold : ∀ w0 lw0, w0 ≠ w → heap st' !! w0 = Some (OWorld lw0) →
            heap st !! w0 = Some (OWorld lw0)).
  { intros w0 lw0 Hw0 Hlook. rewrite <- Hother; [done|done|].
    intros ->. congruence. }
  split.
  - intros w0 lw0 Hw0. destruct (decide (w0 = w)) as [->|Hw0ne].
    + assert (lw0 = lw') as -> by congruence.
      destruct (Hworlds w lw Hw) as (Hwf & Hnd & Hall & s & Hs & Hiff).
      split; [done|]. rewrite Helems. split.
      { apply NoDup_app. split; [done|]. split; [|apply NoDup_singleton].
        intros x Hx Hx'%list_elem_of_singleton. subst x.
        by apply (all_lights_not_free st _ light Hall). }
      split.
      { apply Forall_app. split.
        - apply (all_lights_frame st); [|done]. intros x Hx. by apply (Hkeep w lw).
        - constructor; [by exists l|constructor]. }
      exists ({[light]} ∪ s). split; [by rewrite lookup_alter_eq, Hs|].
      intros x. rewrite elem_of_app, list_elem_of_singleton, Hiff.
      rewrite elem_of_union, elem_of_singleton. tauto.
    + pose proof (Hold w0 lw0 Hw0ne Hw0) as Hw0'.
      destruct (Hworlds w0 lw0 Hw0') as (Hwf & Hnd & Hall & s & Hs & Hiff).
      split; [done|]. split; [done|]. split.
      { apply (all_lights_frame st); [|done]. intros x Hx. by apply (Hkeep w0 lw0). }
      exists s. by rewrite lookup_alter_ne.
  - intros w1 w2 lw1 lw2 x Hne12 H1 H2 Hx1 Hx2.
    destruct (decide (w1 = w)) as [->|Hne1]; destruct (decide (w2 = w)) as [->|Hne2];
      try done.
    + assert (lw1 = lw') as -> by congruence.
      pose proof (Hold w2 lw2 Hne2 H2) as H2'.
      rewrite Helems in Hx1. apply elem_of_app in Hx1 as [Hx1|Hx1%list_elem_of_singleton]; [|subst x].
      * by apply (Hdisj w w2 lw lw2 x).
      * destruct (Hworlds w2 lw2 H2') as (_ & _ & Hall & _).
        by apply (all_lights_not_free st _ light Hall).
    + assert (lw2 = lw') as -> by congruence.
      pose proof (Hold w1 lw1 Hne1 H1) as H1'.
      rewrite Helems in Hx2. apply elem_of_app in Hx2 as [Hx2|Hx2%list_elem_of_singleton]; [|subst x].
      * by apply (Hdisj w1 w lw1 lw x).
      * destruct (Hworlds w1 lw1 H1') as (_ & _ & Hall & _).
        by apply (all_lights_not_free st _ light Hall).
    + by apply (Hdisj w1 w2 lw1 lw2 x); [|apply Hold|apply Hold|..].
Qed.

Lemma invariant_Destroy (st : State) live w lw light i back :
  heap st !! w = Some (OWorld lw) →
  dmArray.m_Elems (m_Lights lw) !! i = Some light →
  last (dmArray.m_Elems (m_Lights lw)) = Some back →
  invariant st live →
  invariant (set_heap (delete light
                         (<[w := OWorld {| m_Lights := erase_swap i back (m_Lights lw) |}]>
                            (heap st))) st)
            (alter (fun s => s ∖ {[light]}) w live).
Proof.
  intros Hw Hi Hlast [Hworlds Hdisj].
  destruct (Hworlds w lw Hw) as (Hwf & Hnd & Hall & s & Hs & Hiff).
  assert (Hin : light ∈ dmArray.m_Elems (m_Lights lw)) by by eapply list_elem_of_lookup_2.
  assert (Hne : light ≠ w) by by apply (all_lights_not_world st _ w lw light Hall).
  assert (Hlook : ∀ p, p ≠ light → p ≠ w →
            delete light (<[w := OWorld {| m_Lights := erase_swap i back (m_Lights lw) |}]>
                            (heap st)) !! p = heap st !! p).
  { intros p Hp1 Hp2. by rewrite lookup_delete_ne, lookup_insert_ne. }
  assert (Hold : ∀ w0 lw0, w0 ≠ w →
            delete light (<[w := OWorld {| m_Lights := erase_swap i back (m_Lights lw) |}]>
                            (heap st)) !! w0 = Some (OWorld lw0) →
            heap st !! w0 = Some (OWorld lw0)).
  { intros w0 lw0 Hw0 Hl0. rewrite lookup_delete in Hl0.
    destruct (decide (light = w0)); [done|]. by rewrite lookup_insert_ne in Hl0. }
  split.
  - intros w0 lw0. simpl heap. intros Hw0. destruct (decide (w0 = w)) as [->|Hw0ne].
    + rewrite lookup_delete_ne, lookup_insert_eq in Hw0 by done.
      injection Hw0 as <-. simpl m_Lights.
      split.
      { unfold dmArray.wf, dmArray.Size, dmArray.Capacity, erase_swap in *. simpl.
        rewrite length_take, length_insert. unfold dmArray.Size. lia. }
      unfold erase_swap, dmArray.Size. simpl dmArray.m_Elems.
      split; [by apply (erase_swap_NoDup _ i light back)|].
      split.
      { unfold all_lights. rewrite Forall_forall. intros y Hy.
        apply (erase_swap_elem_of _ i light back y Hnd Hi Hlast) in Hy as [Hy Hyne].
        simpl heap. rewrite Hlook; [by apply (all_lights_live st _ y Hall)|done|].
        by apply (all_lights_not_world st _ w lw y Hall). }
      exists (s ∖ {[light]}). split; [by rewrite lookup_alter_eq, Hs|].
      intros y. rewrite (erase_swap_elem_of _ i light back y Hnd Hi Hlast), Hiff.
      rewrite elem_of_difference, elem_of_singleton. tauto.
    + pose proof (Hold w0 lw0 Hw0ne Hw0) as Hw0'.
      destruct (Hworlds w0 lw0 Hw0') as (Hwf0 & Hnd0 & Hall0 & s0 & Hs0 & Hiff0).
      split; [done|]. split; [done|]. split.
      { apply (all_lights_frame st); [|done]. intros y Hy. simpl heap. apply Hlook.
        - intros ->. by apply (Hdisj w w0 lw lw0 light).
        - by apply (all_lights_not_world st _ w lw y Hall0). }
      exists s0. by rewrite lookup_alter_ne.
  - intros w1 w2 lw1 lw2 x Hne12. simpl heap. intros H1 H2 Hx1 Hx2.
    destruct (decide (w1 = w)) as [->|Hne1]; destruct (decide (w2 = w)) as [->|Hne2];
      try done.
    + rewrite lookup_delete_ne, lookup_insert_eq in H1 by done. injection H1 as <-.
      apply (erase_swap_elem_of _ i light back x Hnd Hi Hlast) in Hx1 as [Hx1 _].
      by apply (Hdisj w w2 lw lw2 x); [|done|apply Hold|..].
    + rewrite lookup_delete_ne, lookup_insert_eq in H2 by done. injection H2 as <-.
      apply (erase_swap_elem_of _ i light back x Hnd Hi Hlast) in Hx2 as [Hx2 _].
      by apply (Hdisj w1 w lw1 lw x); [|apply Hold|..].
    + by apply (Hdisj w1 w2 lw1 lw2 x); [|apply Hold|apply Hold|..].
Qed.

(** A call that returns got through each of its steps. *)
Lemma bind_Returns_inv {A B} (m : Outcome A) (k : A → Outcome B) b :
  (m ≫= k) = Returns b → ∃ a, m = Returns a ∧ k a = Returns b.
Proof. destruct m as [a| |]; intros H; [by exists a|done|done]. Qed.

Lemma load_world_inv (st : State) w lw :
  load_world w st = Returns lw → heap st !! w = Some (OWorld lw).
Proof.
  unfold load_world. destruct (heap st !! w) as [[l|lw']|]; [done| |done].
  by intros [= ->].
Qed.

Lemma Update_loop_heap w receiver id size : ∀ steps i buf (st : State) r st',
  CompLightUpdate_loop Post dmHashString32 sizeof_SetLight m_DDFDescriptor
    steps i w receiver id size buf st = Returns (r, st') →
  heap st' = heap st.
Proof.
  induction steps as [|steps IH]; intros i buf st r st' Hrun.
  - by injection Hrun as _ <-.
  - simpl CompLightUpdate_loop in Hrun.
    apply bind_Returns_inv in Hrun as (lw & _ & Hrun).
    apply bind_Returns_inv in Hrun as (l & _ & Hrun).
    apply bind_Returns_inv in Hrun as (light & _ & Hrun).
    apply bind_Returns_inv in Hrun as (buf' & _ & Hrun).
    unfold dmMessage_Post in Hrun.
    destruct (Post (bus st) _) as [[|code] bus'].
    + by apply IH in Hrun.
    + by injection Hrun as _ <-.
Qed.

Lemma Update_heap (st : State) params stack r st' :
  Update params stack st = Returns (r, st') → heap st' = heap st.
Proof.
  unfold CompLightUpdate.
  destruct (GetSocket (bus st) "@render") as [[|code] socket]; simpl negb; cbv iota.
  - intros (lw & _ & Hrun)%bind_Returns_inv. by apply Update_loop_heap in Hrun.
  - by intros [= _ <-].
Qed.

Local Abbreviation call_ :=
  (call GetSocket Post dmHashString32 dmHashString64 sizeof_SetLight m_DDFDescriptor
     new_address (ComponentOnMessageParams := ComponentOnMessageParams)).
Local Abbreviation calls_ :=
  (calls GetSocket Post dmHashString32 dmHashString64 sizeof_SetLight m_DDFDescriptor
     new_address (ComponentOnMessageParams := ComponentOnMessageParams)).
Local Abbreviation reachable_ :=
  (reachable GetSocket Post dmHashString32 dmHashString64 sizeof_SetLight
     m_DDFDescriptor new_address (ComponentOnMessageParams := ComponentOnMessageParams)).

Lemma invariant_call c (st st' : State) live live' :
  invariant st live → call_ c (st, live) = Returns (st', live') → invariant st' live'.
Proof.
  intros Hinv. destruct c as [|params|params|params|params stack|params|pos rot res b];
    unfold call; cbv beta iota.
  - destruct (NewWorld_spec st) as (w & st1 & -> & Hfree & _ & Hheap).
    rewrite bind_Returns. intros [= <- <-].
    apply (invariant_same_heap
             (set_heap (<[w := OWorld {| m_Lights := dmArray.empty |}]> (heap st)) st));
      [done|]. by apply invariant_NewWorld.
  - intros ([r st1] & Hrun & [= <- <-])%bind_Returns_inv.
    unfold CompLightDeleteWorld in Hrun.
    apply bind_Returns_inv in Hrun as (st2 & Hdel & [= _ <-]).
    unfold delete_world in Hdel.
    apply bind_Returns_inv in Hdel as (lw & Hw%load_world_inv & [= <-]).
    by apply (invariant_DeleteWorld st live _ lw).
  - intros ([[r light] st1] & Hrun & [= <- <-])%bind_Returns_inv.
    pose proof Hrun as Hw. unfold CompLightCreate in Hw.
    apply bind_Returns_inv in Hw as (lw & Hw%load_world_inv & _).
    destruct Hinv as [Hworlds Hdisj].
    destruct (Hworlds _ lw Hw) as (Hwf & _).
    destruct (Create_spec st params lw Hw Hwf)
      as (light' & st2 & lw' & Hrun' & Hfree & _ & Hw' & Hl & Hother & Helems & _ & Hwf').
    rewrite Hrun in Hrun'. injection Hrun' as _ <- <-.
    by eapply (invariant_Create st st1 live _ lw lw' light).
  - intros ([r st1] & Hrun & [= <- <-])%bind_Returns_inv.
    pose proof Hrun as Hw. unfold CompLightDestroy in Hw.
    apply bind_Returns_inv in Hw as (lw & Hw%load_world_inv & _).
    destruct (decide (ComponentDestroyParams.m_UserData params
                        ∈ dmArray.m_Elems (m_Lights lw))) as [Hin|Hnot].
    + pose proof Hinv as [Hworlds _].
      destruct (Hworlds _ lw Hw) as (_ & _ & Hall & _).
      destruct (all_lights_live st _ _ Hall Hin) as [x Hx].
      destruct (Destroy_spec st params lw x Hw Hx Hin)
        as (i & back & Hi & _ & Hlast & Hrun').
      rewrite Hrun in Hrun'. injection Hrun' as _ ->.
      by apply invariant_Destroy.
    + by rewrite (Destroy_not_found st params lw Hw Hnot) in Hrun.
  - intros ([r st1] & Hrun & [= <- <-])%bind_Returns_inv.
    apply Update_heap in Hrun. by apply (invariant_same_heap st).
  - intros ([r st1] & [= _ <-] & [= <- <-])%bind_Returns_inv. done.
  - intros [= <- <-]. by apply (invariant_same_heap st).
Qed.

Lemma invariant_calls cs : ∀ (st st' : State) live live',
  invariant st live → calls_ cs (st, live) = Returns (st', live') → invariant st' live'.
Proof.
  induction cs as [|c cs IH]; intros st st' live live' Hinv; simpl calls.
  - by intros [= <- <-].
  - intros ([st1 live1] & Hcall & Hrest)%bind_Returns_inv.
    eapply IH; [|exact Hrest]. by eapply invariant_call.
Qed.

Lemma reachable_invariant (st : State) live : reachable_ st live → invariant st live.
Proof.
  intros (st0 & cs & Hstart & Hrun).
  eapply invariant_calls; [|exact Hrun]. by apply invariant_start.
Qed.

(** What CompLightUpdate needs of the list holds in every state of a run:
    the addresses in the list of a live world point to live lights. *)
Lemma reachable_all_lights (st : State) live w lw :
  reachable_ st live → heap st !! w = Some (OWorld lw) →
  all_lights st (dmArray.m_Elems (m_Lights lw)).
Proof.
  intros Hreach Hw. destruct (reachable_invariant st live Hreach) as [Hworlds _].
  by destruct (Hworlds w lw Hw) as (_ & _ & Hall & _).
Qed.

(** C3: CompLightCreate appends one new light, made of the given instance
    and resource, to the list of its world and returns its address as user
    data; CompLightDestroy removes that light from the list; and in every
    state reached by a run of calls the list of a world holds exactly the
    lights that were created in that world and not yet destroyed, each
    once. *)
Theorem light_list_tracks_live_lights :
  (∀ (st : State) params lw,
     let w := ComponentCreateParams.m_World params in
     heap st !! w = Some (OWorld lw) →
     dmArray.wf (m_Lights lw) →
     ∃ light st' lw',
       Create_ params st = Returns (CREATE_RESULT_OK, light, st') ∧
       heap st !! light = None ∧
       heap st' !! light =
         Some (OLight {| m_Instance := ComponentCreateParams.m_Instance params;
                         m_LightResource := ComponentCreateParams.m_Resource params |}) ∧
       heap st' !! w = Some (OWorld lw') ∧
       dmArray.m_Elems (m_Lights lw') = dmArray.m_Elems (m_Lights lw) ++ [light]) ∧
  (∀ (st : State) params lw x,
     let w := ComponentDestroyParams.m_World params in
     let light := ComponentDestroyParams.m_UserData params in
     heap st !! w = Some (OWorld lw) →
     heap st !! light = Some (OLight x) →
     NoDup (dmArray.m_Elems (m_Lights lw)) →
     light ∈ dmArray.m_Elems (m_Lights lw) →
     ∃ st' lw',
       CompLightDestroy params st = Returns (CREATE_RESULT_OK, st') ∧
       heap st' !! light = None ∧
       heap st' !! w = Some (OWorld lw') ∧
       length (dmArray.m_Elems (m_Lights lw')) =
         (length (dmArray.m_Elems (m_Lights lw)) - 1)%nat ∧
       ∀ y, y ∈ dmArray.m_Elems (m_Lights lw') ↔
            y ∈ dmArray.m_Elems (m_Lights lw) ∧ y ≠ light) ∧
  (∀ (st : State) live w lw,
     reachable_ st live →
     heap st !! w = Some (OWorld lw) →
     NoDup (dmArray.m_Elems (m_Lights lw)) ∧
     ∃ s : gset ptr, live !! w = Some s ∧
                     ∀ x, x ∈ dmArray.m_Elems (m_Lights lw) ↔ x ∈ s).
Proof.
  split; [|split].
  - intros st params lw w Hw Hwf.
    destruct (Create_spec st params lw Hw Hwf)
      as (light & st' & lw' & Hrun & Hfree & _ & Hw' & Hl & _ & Helems & _).
    by exists light, st', lw'.
  - intros st params lw x w light Hw Hx Hnd Hin.
    destruct (Destroy_spec st params lw x Hw Hx Hin)
      as (i & back & Hi & _ & Hlast & Hrun).
    assert (Hne : light ≠ w) by (intros Heq; rewrite Heq in Hx; congruence).
    eexists _, _. split; [exact Hrun|]. simpl heap.
    split; [by rewrite lookup_delete_eq|].
    split; [by rewrite lookup_delete_ne, lookup_insert_eq|].
    simpl. unfold dmArray.Size. split.
    + rewrite length_take, length_insert. lia.
    + intros y. by apply (erase_swap_elem_of _ i light back).
  - intros st live w lw Hreach Hw.
    destruct (reachable_invariant st live Hreach) as [Hworlds _].
    by destruct (Hworlds w lw Hw) as (_ & Hnd & _ & Hlive).
Qed.

(** C6: CompLightNewWorld makes a new world with an empty list of lights,
    hands its address back and returns CREATE_RESULT_OK; CompLightDeleteWorld
    frees the world it is given and returns CREATE_RESULT_OK. *)
Theorem world_created_empty_and_deleted :
  (∀ st : State,
     ∃ w st',
       NewWorld_ st = Returns (CREATE_RESULT_OK, w, st') ∧
       heap st !! w = None ∧
       lights_of w st' = Some [] ∧
       (∀ p, p ≠ w → heap st' !! p = heap st !! p) ∧
       same_engine st st') ∧
  (∀ (st : State) params lw,
     let w := ComponentDeleteWorldParams.m_World params in
     heap st !! w = Some (OWorld lw) →
     ∃ st',
       CompLightDeleteWorld params st = Returns (CREATE_RESULT_OK, st') ∧
       heap st' !! w = None ∧
       (∀ p, p ≠ w → heap st' !! p = heap st !! p) ∧
       same_engine st st').
Proof.
  split.
  - intros st. destruct (NewWorld_spec st) as (w & st' & Hrun & Hfree & Heng & Hheap).
    exists w, st'. split; [done|]. split; [done|].
    split. { unfold lights_of. by rewrite Hheap, lookup_insert_eq. }
    split; [|done]. intros p Hp. by rewrite Hheap, lookup_insert_ne.
  - intros st params lw w Hw. eexists. split; [by apply (DeleteWorld_spec st params lw)|].
    simpl heap. split; [by rewrite lookup_delete_eq|].
    split; [|by repeat split]. intros p Hp. by rewrite lookup_delete_ne.
Qed.

(** C7: CompLightOnMessage returns UPDATE_RESULT_OK whatever the message,
    and leaves the state as it is. *)
Theorem CompLightOnMessage_ignores_messages
    (params : ComponentOnMessageParams) (st : State) :
  CompLightOnMessage params st = Returns (UPDATE_RESULT_OK, st).
Proof. reflexivity. Qed.

(** C9: the array of a world is never pushed beyond its capacity.  In
    every state reached by a run the array of a live world is within its
    capacity, and on such an array CompLightCreate returns
    CREATE_RESULT_OK: a full array first gets 16 more slots, and the push
    finds room. *)
Theorem CompLightCreate_never_overflows :
  (∀ (st : State) live w lw,
     reachable_ st live → heap st !! w = Some (OWorld lw) → dmArray.wf (m_Lights lw)) ∧
  (∀ (st : State) params lw,
     let w := ComponentCreateParams.m_World params in
     heap st !! w = Some (OWorld lw) →
     dmArray.wf (m_Lights lw) →
     ∃ light st' lw',
       Create_ params st = Returns (CREATE_RESULT_OK, light, st') ∧
       heap st' !! w = Some (OWorld lw') ∧
       dmArray.Capacity (m_Lights lw') =
         (if dmArray.Full (m_Lights lw)
          then dmArray.Capacity (m_Lights lw) + 16
          else dmArray.Capacity (m_Lights lw))%nat ∧
       dmArray.m_Elems (m_Lights lw') = dmArray.m_Elems (m_Lights lw) ++ [light] ∧
       (dmArray.Size (m_Lights lw') <= dmArray.Capacity (m_Lights lw'))%nat).
Proof.
  split.
  - intros st live w lw Hreach Hw.
    destruct (reachable_invariant st live Hreach) as [Hworlds _].
    by destruct (Hworlds w lw Hw) as (Hwf & _).
  - intros st params lw w Hw Hwf.
    destruct (Create_spec st params lw Hw Hwf)
      as (light & st' & lw' & Hrun & _ & _ & Hw' & _ & _ & Helems & Hcap & Hwf').
    by exists light, st', lw'.
Qed.

(** C10: CompLightDestroy on a light that was created in the world it is
    called for and has not been destroyed yet does not reach assert(false):
    the light is found at some index of the list, the slot gets the last
    element and the list loses its last slot, the light is freed, and the
    result is CREATE_RESULT_OK. *)
Theorem CompLightDestroy_finds_live_light (st : State) live params lw (s : gset ptr) :
  let w := ComponentDestroyParams.m_World params in
  let light := ComponentDestroyParams.m_UserData params in
  reachable_ st live →
  heap st !! w = Some (OWorld lw) →
  live !! w = Some s →
  light ∈ s →
  ∃ i back st',
    dmArray.m_Elems (m_Lights lw) !! i = Some light ∧
    last (dmArray.m_Elems (m_Lights lw)) = Some back ∧
    CompLightDestroy params st = Returns (CREATE_RESULT_OK, st') ∧
    heap st' !! light = None ∧
    lights_of w st' =
      Some (take (length (dmArray.m_Elems (m_Lights lw)) - 1)
              (<[i := back]> (dmArray.m_Elems (m_Lights lw)))) ∧
    light :: take (length (dmArray.m_Elems (m_Lights lw)) - 1)
               (<[i := back]> (dmArray.m_Elems (m_Lights lw)))
      ≡ₚ dmArray.m_Elems (m_Lights lw).
Proof.
  intros w light Hreach Hw Hs Hin.
  destruct (reachable_invariant st live Hreach) as [Hworlds _].
  destruct (Hworlds w lw Hw) as (_ & _ & Hall & s' & Hs' & Hiff).
  assert (s' = s) as -> by congruence.
  apply Hiff in Hin.
  destruct (all_lights_live st _ _ Hall Hin) as [x Hx].
  destruct (Destroy_spec st params lw x Hw Hx Hin)
    as (i & back & Hi & _ & Hlast & Hrun).
  assert (Hne : light ≠ w) by (intros Heq; rewrite Heq in Hx; congruence).
  eexists i, back, _. split; [done|]. split; [done|]. split; [exact Hrun|].
  simpl heap. split; [by rewrite lookup_delete_eq|].
  split.
  - unfold lights_of. simpl heap. by rewrite lookup_delete_ne, lookup_insert_eq.
  - by apply erase_swap_Permutation.
Qed.

(** ** Further properties of the callbacks *)

Lemma same_engine_refl (st : State) : same_engine st st.
Proof. by repeat split. Qed.

Lemma same_engine_trans (st1 st2 st3 : State) :
  same_engine st1 st2 → same_engine st2 st3 → same_engine st1 st3.
Proof.
  unfold same_engine. intros (->&->&->&->&->&->) (->&->&->&->&->&->). done.
Qed.

Lemma same_engine_set_heap (st : State) h : same_engine st (set_heap h st).
Proof. by repeat split. Qed.

(** X1: a light that is not in the list of the world is not found:
    CompLightDestroy runs through the whole list and stops at
    assert(false), whatever the list holds; on an empty list at once. *)
Theorem CompLightDestroy_unknown_light_asserts (st : State) params lw :
  heap st !! ComponentDestroyParams.m_World params = Some (OWorld lw) →
  ComponentDestroyParams.m_UserData params ∉ dmArray.m_Elems (m_Lights lw) →
  CompLightDestroy params st = AssertionFailed.
Proof. apply Destroy_not_found. Qed.

(** X2: destroying a light twice is caught: after CompLightDestroy has
    removed a light from a list without duplicates, a second call with the
    same parameters stops at assert(false). *)
Theorem CompLightDestroy_twice_asserts (st : State) params lw x :
  let w := ComponentDestroyParams.m_World params in
  let light := ComponentDestroyParams.m_UserData params in
  heap st !! w = Some (OWorld lw) →
  heap st !! light = Some (OLight x) →
  NoDup (dmArray.m_Elems (m_Lights lw)) →
  light ∈ dmArray.m_Elems (m_Lights lw) →
  ∃ st',
    CompLightDestroy params st = Returns (CREATE_RESULT_OK, st') ∧
    CompLightDestroy params st' = AssertionFailed.
Proof.
  intros w light Hw Hx Hnd Hin.
  destruct (Destroy_spec st params lw x Hw Hx Hin) as (i & back & Hi & _ & Hlast & Hrun).
  assert (Hne : light ≠ w) by (intros Heq; rewrite Heq in Hx; congruence).
  eexists. split; [exact Hrun|].
  eapply Destroy_not_found.
  - simpl heap. fold w light. by rewrite lookup_delete_ne, lookup_insert_eq.
  - simpl. unfold dmArray.Size. fold light.
    rewrite (erase_swap_elem_of _ i light back light Hnd Hi Hlast). by intros [_ ?].
Qed.

(** X12: in every state of a run no light is in the lists of two worlds. *)
Theorem lights_of_worlds_disjoint (st : State) live w1 w2 lw1 lw2 x :
  reachable_ st live →
  w1 ≠ w2 →
  heap st !! w1 = Some (OWorld lw1) →
  heap st !! w2 = Some (OWorld lw2) →
  x ∈ dmArray.m_Elems (m_Lights lw1) →
  x ∉ dmArray.m_Elems (m_Lights lw2).
Proof.
  intros Hreach. destruct (reachable_invariant st live Hreach) as [_ Hdisj].
  apply Hdisj.
Qed.

(** X3: a light cannot be destroyed through another world than the one it
    was created in: in every state of a run, CompLightDestroy called for
    world [w2] with a light that is live in world [w1] stops at
    assert(false). *)
Theorem CompLightDestroy_wrong_world_asserts (st : State) live params w1 lw1 lw2
    (s : gset ptr) :
  let w2 := ComponentDestroyParams.m_World params in
  let light := ComponentDestroyParams.m_UserData params in
  reachable_ st live →
  w1 ≠ w2 →
  heap st !! w1 = Some (OWorld lw1) →
  heap st !! w2 = Some (OWorld lw2) →
  live !! w1 = Some s →
  light ∈ s →
  CompLightDestroy params st = AssertionFailed.
Proof.
  intros w2 light Hreach Hne H1 H2 Hs Hin.
  destruct (reachable_invariant st live Hreach) as [Hworlds Hdisj].
  destruct (Hworlds w1 lw1 H1) as (_ & _ & _ & s' & Hs' & Hiff).
  assert (s' = s) as -> by congruence.
  apply (Destroy_not_found st params lw2 H2).
  apply (Hdisj w1 w2 lw1 lw2 light Hne H1 H2). by apply Hiff.
Qed.

(** X4: creating a light and destroying it again gives the list back as it
    was, in the same order: the new light sits in the last slot, so the swap
    of the erase moves nothing.  The light is freed, every other object is
    untouched, and only the capacity of the array may have grown. *)
Theorem CompLightCreate_then_Destroy (st : State) params lw :
  let w := ComponentCreateParams.m_World params in
  heap st !! w = Some (OWorld lw) →
  dmArray.wf (m_Lights lw) →
  all_lights st (dmArray.m_Elems (m_Lights lw)) →
  ∃ light st1 st2,
    Create_ params st = Returns (CREATE_RESULT_OK, light, st1) ∧
    CompLightDestroy (ComponentDestroyParams.Make w light) st1 =
      Returns (CREATE_RESULT_OK, st2) ∧
    lights_of w st2 = Some (dmArray.m_Elems (m_Lights lw)) ∧
    heap st2 !! light = None ∧
    (∀ p, p ≠ w → heap st2 !! p = heap st !! p) ∧
    same_engine st st2.
Proof.
  intros w Hw Hwf Hall.
  destruct (Create_spec st params lw Hw Hwf)
    as (light & st1 & lw1 & Hrun1 & Hfree & Heng1 & Hw1 & Hl1 & Hother & Helems & _ & _).
  assert (Hnotin : light ∉ dmArray.m_Elems (m_Lights lw))
    by by apply (all_lights_not_free st).
  assert (Hne : light ≠ w) by (intros Heq; rewrite Heq in Hfree; congruence).
  assert (Hin1 : light ∈ dmArray.m_Elems (m_Lights lw1)).
  { rewrite Helems. apply elem_of_app. right. by apply list_elem_of_singleton. }
  destruct (Destroy_spec st1 (ComponentDestroyParams.Make w light) lw1 _ Hw1 Hl1 Hin1)
    as (i & back & Hi & Hfirst & Hlast & Hrun2).
  simpl in Hi, Hfirst, Hlast, Hrun2.
  assert (i = length (dmArray.m_Elems (m_Lights lw))) as ->.
  { rewrite Helems in Hi. destruct (decide (i < length (dmArray.m_Elems (m_Lights lw)))%nat)
      as [Hlt|Hge].
    - rewrite lookup_app_l in Hi by done. exfalso. apply Hnotin.
      by eapply list_elem_of_lookup_2.
    - apply lookup_lt_Some in Hi. rewrite length_app in Hi. simpl in Hi. lia. }
  assert (back = light) as ->.
  { rewrite Helems, last_snoc in Hlast. congruence. }
  eexists light, st1, _. split; [exact Hrun1|]. split; [exact Hrun2|].
  simpl heap. split.
  { unfold lights_of. simpl heap. rewrite lookup_delete_ne, lookup_insert_eq by done.
    simpl. unfold dmArray.Size. rewrite Helems, length_app. simpl length.
    rewrite Nat.add_sub.
    rewrite list_insert_id by (by rewrite list_lookup_middle).
    by rewrite take_app_length. }
  split; [by rewrite lookup_delete_eq|].
  split.
  { intros p Hp. rewrite lookup_delete.
    destruct (decide (light = p)) as [<-|Hpl]; [done|].
    rewrite lookup_insert_ne by done. by apply Hother. }
  eapply same_engine_trans; [exact Heng1|apply same_engine_set_heap].
Qed.

(** X5: CompLightDeleteWorld frees the world only.  The lights that are
    still in its list stay allocated, and in a state of a run they are in
    the list of no world that is left. *)
Theorem CompLightDeleteWorld_leaves_lights (st : State) live params lw :
  let w := ComponentDeleteWorldParams.m_World params in
  reachable_ st live →
  heap st !! w = Some (OWorld lw) →
  ∃ st',
    CompLightDeleteWorld params st = Returns (CREATE_RESULT_OK, st') ∧
    all_lights st' (dmArray.m_Elems (m_Lights lw)) ∧
    ∀ w' lw' x, heap st' !! w' = Some (OWorld lw') →
                x ∈ dmArray.m_Elems (m_Lights lw) →
                x ∉ dmArray.m_Elems (m_Lights lw').
Proof.
  intros w Hreach Hw.
  destruct (reachable_invariant st live Hreach) as [Hworlds Hdisj].
  destruct (Hworlds w lw Hw) as (_ & _ & Hall & _).
  eexists. split; [by apply (DeleteWorld_spec st params lw)|]. split.
  - apply (all_lights_frame st); [|done]. intros x Hx. simpl heap.
    rewrite lookup_delete_ne; [done|]. intros Heq. fold w in Heq. subst x.
    by apply (all_lights_not_world st _ w lw w Hall).
  - intros w' lw' x. simpl heap. fold w. rewrite lookup_delete.
    destruct (decide (w = w')) as [<-|Hne]; [done|].
    intros Hw' Hx. by apply (Hdisj w w' lw lw' x).
Qed.

(** X11: creating or destroying a light in one world leaves the list of
    every other world as it is. *)
Theorem other_worlds_keep_their_lists :
  (∀ (st : State) params lw w',
     let w := ComponentCreateParams.m_World params in
     heap st !! w = Some (OWorld lw) →
     dmArray.wf (m_Lights lw) →
     w' ≠ w →
     ∃ light st',
       Create_ params st = Returns (CREATE_RESULT_OK, light, st') ∧
       lights_of w' st' = lights_of w' st) ∧
  (∀ (st : State) params lw x w',
     let w := ComponentDestroyParams.m_World params in
     let light := ComponentDestroyParams.m_UserData params in
     heap st !! w = Some (OWorld lw) →
     heap st !! light = Some (OLight x) →
     light ∈ dmArray.m_Elems (m_Lights lw) →
     w' ≠ w →
     ∃ st',
       CompLightDestroy params st = Returns (CREATE_RESULT_OK, st') ∧
       lights_of w' st' = lights_of w' st).
Proof.
  split.
  - intros st params lw w' w Hw Hwf Hne.
    destruct (Create_spec st params lw Hw Hwf)
      as (light & st' & lw' & Hrun & Hfree & _ & _ & Hl & Hother & _).
    exists light, st'. split; [exact Hrun|]. unfold lights_of.
    destruct (decide (w' = light)) as [->|Hnl].
    + by rewrite Hl, Hfree.
    + by rewrite Hother.
  - intros st params lw x w' w light Hw Hx Hin Hne.
    destruct (Destroy_spec st params lw x Hw Hx Hin) as (i & back & _ & _ & _ & Hrun).
    eexists. split; [exact Hrun|]. unfold lights_of. simpl heap. fold w light.
    rewrite lookup_delete. destruct (decide (light = w')) as [<-|Hnl].
    + by rewrite Hx.
    + by rewrite lookup_insert_ne.
Qed.

Lemma store_world_inv (st st' : State) w lw :
  store_world w lw st = Returns st' → st' = set_heap (<[w := OWorld lw]> (heap st)) st.
Proof.
  unfold store_world. intros (lw0 & _ & Hret)%bind_Returns_inv. by injection Hret as <-.
Qed.

Lemma delete_light_inv (st st' : State) l :
  delete_light l st = Returns st' → st' = set_heap (delete l (heap st)) st.
Proof.
  unfold delete_light. intros (x & _ & Hret)%bind_Returns_inv. by injection Hret as <-.
Qed.

Lemma Destroy_loop_same_engine light w : ∀ steps i (st : State) r st',
  CompLightDestroy_loop steps i light w st = Returns (r, st') →
  r = CREATE_RESULT_OK ∧ same_engine st st'.
Proof.
  induction steps as [|steps IH]; intros i st r st' Hrun; [done|].
  simpl CompLightDestroy_loop in Hrun.
  apply bind_Returns_inv in Hrun as (lw & _ & Hrun).
  apply bind_Returns_inv in Hrun as (x & _ & Hrun).
  destruct (decide (x = light)) as [_|_]; [|by apply IH in Hrun].
  apply bind_Returns_inv in Hrun as (lights & _ & Hrun).
  apply bind_Returns_inv in Hrun as (st1 & ->%store_world_inv & Hrun).
  apply bind_Returns_inv in Hrun as (st2 & ->%delete_light_inv & Hrun).
  injection Hrun as <- <-. by repeat split.
Qed.

(** X9: the callbacks that create and destroy never report an error, send
    no message and write nothing to the log: whenever CompLightNewWorld,
    CompLightDeleteWorld, CompLightCreate or CompLightDestroy returns, the
    result is CREATE_RESULT_OK and only the free store may have changed. *)
Theorem lifecycle_callbacks_only_touch_free_store :
  (∀ (st : State) r w st',
     NewWorld_ st = Returns (r, w, st') → r = CREATE_RESULT_OK ∧ same_engine st st') ∧
  (∀ (st : State) params r st',
     CompLightDeleteWorld params st = Returns (r, st') →
     r = CREATE_RESULT_OK ∧ same_engine st st') ∧
  (∀ (st : State) params r light st',
     Create_ params st = Returns (r, light, st') →
     r = CREATE_RESULT_OK ∧ same_engine st st') ∧
  (∀ (st : State) params r st',
     CompLightDestroy params st = Returns (r, st') →
     r = CREATE_RESULT_OK ∧ same_engine st st').
Proof.
  split; [|split; [|split]].
  - intros st r w st' Hrun. unfold CompLightNewWorld, new_object in Hrun.
    injection Hrun as <- _ <-. by repeat split.
  - intros st params r st' Hrun. unfold CompLightDeleteWorld, delete_world in Hrun.
    apply bind_Returns_inv in Hrun as (st1 & Hdel & Hret).
    apply bind_Returns_inv in Hdel as (lw & _ & Hdel).
    injection Hdel as <-. injection Hret as <- <-. by repeat split.
  - intros st params r light st' Hrun. unfold CompLightCreate, new_object in Hrun.
    apply bind_Returns_inv in Hrun as (lw & _ & Hrun).
    apply bind_Returns_inv in Hrun as (st1 & Hgrow & Hrun).
    assert (Heng1 : same_engine st st1).
    { destruct (dmArray.Full (m_Lights lw)).
      - apply store_world_inv in Hgrow as ->. apply same_engine_set_heap.
      - injection Hgrow as <-. apply same_engine_refl. }
    apply bind_Returns_inv in Hrun as (lw1 & _ & Hrun).
    apply bind_Returns_inv in Hrun as (lights & _ & Hrun).
    apply bind_Returns_inv in Hrun as (st2 & ->%store_world_inv & Hrun).
    injection Hrun as <- _ <-. split; [done|].
    eapply same_engine_trans; [exact Heng1|]. by repeat split.
  - intros st params r st' Hrun. unfold CompLightDestroy in Hrun.
    apply bind_Returns_inv in Hrun as (lw & _ & Hrun).
    by apply Destroy_loop_same_engine in Hrun.
Qed.

Lemma Update_loop_frame w receiver id size : ∀ steps i buf (st : State) r st',
  CompLightUpdate_loop Post dmHashString32 sizeof_SetLight m_DDFDescriptor
    steps i w receiver id size buf st = Returns (r, st') →
  same_scene st st' ∧
  (∃ evs, posted st' = posted st ++ evs) ∧
  match r with
  | UPDATE_RESULT_OK => log st' = log st
  | UPDATE_RESULT_UNKNOWN_ERROR =>
      log st' = log st ++ ["Could not send set_light message to @render."%string]
  end.
Proof.
  induction steps as [|steps IH]; intros i buf st r st' Hrun.
  - injection Hrun as <- <-. split; [apply same_scene_refl|].
    split; [|done]. exists []. by rewrite app_nil_r.
  - simpl CompLightUpdate_loop in Hrun.
    apply bind_Returns_inv in Hrun as (lw & _ & Hrun).
    apply bind_Returns_inv in Hrun as (l & _ & Hrun).
    apply bind_Returns_inv in Hrun as (light & _ & Hrun).
    apply bind_Returns_inv in Hrun as (buf' & _ & Hrun).
    unfold dmMessage_Post in Hrun.
    destruct (Post (bus st) _) as [[|code] bus'].
    + apply IH in Hrun as (Hscene & (evs & Hposted) & Hlog). simpl in *.
      split; [by destruct Hscene as (?&?&?&?)|].
      split; [|done]. eexists (_ :: evs). rewrite Hposted. by rewrite <- app_assoc.
    + injection Hrun as <- <-. split; [by repeat split|]. split; [|done].
      by eexists [_].
Qed.

(** X7: CompLightUpdate is read-only on the lights: whenever it returns,
    the free store, the positions, the rotations and the resources are as
    before, the record of posted messages has only grown at its end, and
    the log has one more line exactly when the result is
    UPDATE_RESULT_UNKNOWN_ERROR. *)
Theorem CompLightUpdate_only_posts_and_logs (st : State) params stack r st' :
  Update params stack st = Returns (r, st') →
  same_scene st st' ∧
  (∃ evs, posted st' = posted st ++ evs) ∧
  match r with
  | UPDATE_RESULT_OK => log st' = log st
  | UPDATE_RESULT_UNKNOWN_ERROR => ∃ line, log st' = log st ++ [line]
  end.
Proof.
  unfold CompLightUpdate.
  destruct (GetSocket (bus st) "@render") as [[|code] socket]; simpl negb; cbv iota.
  - intros (lw & _ & Hrun)%bind_Returns_inv.
    apply Update_loop_frame in Hrun as (Hscene & Hposted & Hlog).
    split; [done|]. split; [done|]. destruct r; [done|by eexists].
  - intros [= <- <-]. split; [by repeat split|]. split.
    + exists []. by rewrite app_nil_r.
    + by eexists.
Qed.

(** X10: CompLightUpdate returns UPDATE_RESULT_OK only if it has posted
    every light: with the socket found, the result is UPDATE_RESULT_OK
    exactly when the calls of Post it made are, light by light and in the
    order of the list, the messages of all the lights of the list (each
    with that light's transform, descriptor members and id, to the socket
    found), and all of them succeeded. *)
Theorem CompLightUpdate_OK_iff_all_posted (st : State) params stack lw socket :
  heap st !! ComponentsUpdateParams.m_World params = Some (OWorld lw) →
  all_lights st (dmArray.m_Elems (m_Lights lw)) →
  GetSocket (bus st) "@render" = (RESULT_OK, socket) →
  ∃ r st' evs,
    Update params stack st = Returns (r, st') ∧
    posted st' = posted st ++ evs ∧
    (r = UPDATE_RESULT_OK ↔
     Forall2 (posted_for st {| m_Socket := socket |})
       (dmArray.m_Elems (m_Lights lw)) evs ∧
     Forall succeeded evs).
Proof.
  intros Hw Hall Hsock.
  destruct (Update_spec st params stack lw socket Hw Hall Hsock)
    as (r & st' & evs & Hrun & _ & Hposted & Hall2 & _ & Hr).
  exists r, st', evs. split; [done|]. split; [done|]. destruct r.
  - destruct Hr as (Hlen & Hok & _). split; [|done]. intros _. split; [|done].
    by rewrite Hlen, firstn_all in Hall2.
  - destruct Hr as (evs0 & ev & -> & _ & Hfail & _). split; [done|].
    intros [_ Hok]. apply Forall_app in Hok as [_ Hok]. by inversion Hok.
Qed.

Lemma fill_buffer_written_over light buf (st : State) :
  length (buf_tail buf) = 9%nat →
  ∃ buf', fill_buffer dmHashString32 sizeof_SetLight light buf st = Returns buf' ∧
    length (buf_tail buf') = 9%nat ∧
    written_over (buf_tail buf) (buf_tail buf').
Proof.
  intros Hlen. unfold fill_buffer.
  rewrite (snprintf_X_u32 _ _ Hlen), bind_Returns.
  set (conversion := format_X (u32 (dmHashString32
                       (m_Id (resource st (m_LightResource light)))))).
  assert (Hle : (length conversion <= 8)%nat) by apply format_X_length_u32.
  destruct (format_X_spec (u32 (dmHashString32
              (m_Id (resource st (m_LightResource light)))))) as [Hhex _].
  { unfold u32. apply Z.mod_pos_bound. lia. }
  fold conversion in Hhex.
  eexists. split; [reflexivity|]. simpl buf_tail. split.
  - rewrite length_app. simpl length. rewrite length_drop. lia.
  - unfold written_over. rewrite (c_str_app_NUL _ _ Hhex).
    rewrite drop_app_ge by lia.
    replace (S (length conversion) - length conversion)%nat with 1%nat by lia.
    reflexivity.
Qed.

Lemma Update_loop_written_in_turn w lw receiver id size : ∀ steps i buf (st : State),
  heap st !! w = Some (OWorld lw) →
  all_lights st (dmArray.m_Elems (m_Lights lw)) →
  (i + steps)%nat = length (dmArray.m_Elems (m_Lights lw)) →
  length (buf_tail buf) = 9%nat →
  ∃ r st' evs,
    CompLightUpdate_loop Post dmHashString32 sizeof_SetLight m_DDFDescriptor
      steps i w receiver id size buf st = Returns (r, st') ∧
    posted st' = posted st ++ evs ∧
    written_in_turn (buf_tail buf) (map (fun ev => buf_tail (post_data ev.1)) evs).
Proof.
  induction steps as [|steps IH]; intros i buf st Hw Hall Hlen Hbuf.
  - exists UPDATE_RESULT_OK, st, []. split; [done|]. split; [by rewrite app_nil_r|done].
  - destruct (lookup_lt_is_Some_2 (dmArray.m_Elems (m_Lights lw)) i) as [l Hl]; [lia|].
    destruct (all_lights_live st _ l Hall) as [light Hlight];
      [by eapply list_elem_of_lookup_2|].
    destruct (fill_buffer_written_over light buf st Hbuf) as (buf' & Hfill & Hbuf' & Hover).
    simpl CompLightUpdate_loop.
    rewrite (load_world_live _ _ _ Hw), bind_Returns.
    rewrite (dmArray_At_lookup _ _ _ Hl), bind_Returns.
    rewrite (load_light_live _ _ _ Hlight), bind_Returns.
    rewrite Hfill, bind_Returns.
    unfold dmMessage_Post.
    destruct (Post (bus st) _) as [[|code] bus'] eqn:HPost; simpl negb; cbv iota.
    + match goal with
      | |- context [CompLightUpdate_loop _ _ _ _ _ _ _ _ _ _ _ ?s] =>
          destruct (IH (S i) buf' s) as (r & st' & evs & Hrun & Hposted & Hturn);
            [done|done|lia|done|]
      end.
      eexists r, st', (_ :: evs). split; [exact Hrun|].
      split; [rewrite Hposted; simpl; by rewrite <- app_assoc|].
      simpl. by split.
    + eexists _, _, [_]. split; [reflexivity|]. split; [done|]. simpl. by split.
Qed.

(** X8: the buffer of CompLightUpdate is reused from light to light without
    being cleared.  In every message the bytes of the tail behind the id
    string and its NUL are those of the message before it, and in the
    first message those the stack held on entry: an id shorter than an
    earlier one leaves the end of the earlier one in the message. *)
Theorem CompLightUpdate_tail_keeps_old_bytes (st : State) params stack lw socket :
  heap st !! ComponentsUpdateParams.m_World params = Some (OWorld lw) →
  all_lights st (dmArray.m_Elems (m_Lights lw)) →
  GetSocket (bus st) "@render" = (RESULT_OK, socket) →
  ∃ r st' evs,
    Update params stack st = Returns (r, st') ∧
    posted st' = posted st ++ evs ∧
    written_in_turn (vec_to_list (stack_tail stack))
      (map (fun ev => buf_tail (post_data ev.1)) evs).
Proof.
  intros Hw Hall Hsock. unfold CompLightUpdate.
  rewrite Hsock. simpl negb. cbv iota.
  rewrite (load_world_live _ _ _ Hw), bind_Returns.
  apply (Update_loop_written_in_turn _ lw); [done|done|done|].
  apply length_vec_to_list.
Qed.

(** One call changes the capacity of a world that stays, or comes to be,
    in one of three ways. *)
Lemma call_capacity c (st st' : State) live live' w lw' :
  invariant st live →
  call_ c (st, live) = Returns (st', live') →
  heap st' !! w = Some (OWorld lw') →
  dmArray.Capacity (m_Lights lw') = 0%nat ∨
  ∃ lw, heap st !! w = Some (OWorld lw) ∧
        (dmArray.Capacity (m_Lights lw') = dmArray.Capacity (m_Lights lw) ∨
         dmArray.Capacity (m_Lights lw') = (dmArray.Capacity (m_Lights lw) + 16)%nat).
Proof.
  intros Hinv. destruct c as [|params|params|params|params stack|params|pos rot res b];
    unfold call; cbv beta iota.
  - destruct (NewWorld_spec st) as (w0 & st1 & -> & Hfree & _ & Hheap).
    rewrite bind_Returns. intros [= <- <-]. rewrite Hheap, lookup_insert.
    destruct (decide (w0 = w)) as [_|_].
    + intros [= <-]. by left.
    + intros Hw. right. exists lw'. split; [done|by left].
  - intros ([r st1] & Hrun & [= <- <-])%bind_Returns_inv.
    unfold CompLightDeleteWorld in Hrun.
    apply bind_Returns_inv in Hrun as (st2 & Hdel & [= _ <-]).
    unfold delete_world in Hdel.
    apply bind_Returns_inv in Hdel as (lw & _ & [= <-]).
    simpl heap. rewrite lookup_delete. destruct (decide _); [done|].
    intros Hw. right. exists lw'. split; [done|by left].
  - intros ([[r light] st1] & Hrun & [= <- <-])%bind_Returns_inv.
    pose proof Hrun as Hw. unfold CompLightCreate in Hw.
    apply bind_Returns_inv in Hw as (lw & Hw%load_world_inv & _).
    destruct Hinv as [Hworlds _].
    destruct (Hworlds _ lw Hw) as (Hwf & _).
    destruct (Create_spec st params lw Hw Hwf)
      as (light' & st2 & lw1 & Hrun' & Hfree & _ & Hw1 & Hl & Hother & _ & Hcap & _).
    rewrite Hrun in Hrun'. injection Hrun' as _ <- <-.
    intros Hlook. right.
    destruct (decide (w = ComponentCreateParams.m_World params)) as [->|Hne].
    + assert (lw' = lw1) as -> by congruence. exists lw. split; [done|].
      rewrite Hcap. destruct (dmArray.Full (m_Lights lw)); [by right|by left].
    + exists lw'. split; [|by left]. rewrite <- Hother; [done|done|].
      intros ->. congruence.
  - intros ([r st1] & Hrun & [= <- <-])%bind_Returns_inv.
    pose proof Hrun as Hw. unfold CompLightDestroy in Hw.
    apply bind_Returns_inv in Hw as (lw & Hw%load_world_inv & _).
    destruct (decide (ComponentDestroyParams.m_UserData params
                        ∈ dmArray.m_Elems (m_Lights lw))) as [Hin|Hnot].
    + pose proof Hinv as [Hworlds _].
      destruct (Hworlds _ lw Hw) as (_ & _ & Hall & _).
      destruct (all_lights_live st _ _ Hall Hin) as [x Hx].
      destruct (Destroy_spec st params lw x Hw Hx Hin)
        as (i & back & _ & _ & _ & Hrun').
      rewrite Hrun in Hrun'. injection Hrun' as _ ->.
      simpl heap. rewrite lookup_delete. destruct (decide _); [done|].
      rewrite lookup_insert. destruct (decide _) as [Heq|_].
      * intros [= <-]. right. exists lw. split; [by rewrite <- Heq|by left].
      * intros Hlook. right. exists lw'. split; [done|by left].
    + by rewrite (Destroy_not_found st params lw Hw Hnot) in Hrun.
  - intros ([r st1] & Hrun & [= <- <-])%bind_Returns_inv.
    apply Update_heap in Hrun. rewrite Hrun.
    intros Hw. right. exists lw'. split; [done|by left].
  - intros ([r st1] & [= _ <-] & [= <- <-])%bind_Returns_inv.
    intros Hw. right. exists lw'. split; [done|by left].
  - intros [= <- <-]. simpl heap.
    intros Hw. right. exists lw'. split; [done|by left].
Qed.

Lemma calls_capacity cs : ∀ (st st' : State) live live',
  invariant st live →
  (∀ w lw, heap st !! w = Some (OWorld lw) →
           (dmArray.Capacity (m_Lights lw) mod 16 = 0)%nat) →
  calls_ cs (st, live) = Returns (st', live') →
  ∀ w lw, heap st' !! w = Some (OWorld lw) →
          (dmArray.Capacity (m_Lights lw) mod 16 = 0)%nat.
Proof.
  induction cs as [|c cs IH]; intros st st' live live' Hinv Hblocks; simpl calls.
  - by intros [= <- <-].
  - intros ([st1 live1] & Hcall & Hrest)%bind_Returns_inv.
    eapply IH; [by eapply invariant_call| |exact Hrest].
    intros w lw Hw.
    destruct (call_capacity c st st1 live live1 w lw Hinv Hcall Hw)
      as [H0|(lw0 & Hw0 & [Heq|Heq])].
    + by rewrite H0.
    + rewrite Heq. by apply (Hblocks w).
    + rewrite Heq. rewrite <- Nat.Div0.add_mod_idemp_l, (Hblocks w lw0 Hw0). done.
Qed.

(** X6: the array of lights grows in blocks of 16: in every state of a run
    the capacity of the array of a live world is a multiple of 16, and at
    least the number of its lights. *)
Theorem capacity_in_blocks_of_16 (st : State) live w lw :
  reachable_ st live →
  heap st !! w = Some (OWorld lw) →
  (dmArray.Capacity (m_Lights lw) mod 16 = 0)%nat ∧
  (dmArray.Size (m_Lights lw) <= dmArray.Capacity (m_Lights lw))%nat.
Proof.
  intros Hreach Hw. split.
  - destruct Hreach as (st0 & cs & Hstart & Hrun).
    eapply (calls_capacity cs st0 st ∅ live); [by apply invariant_start| |exact Hrun|exact Hw].
    intros w0 lw0 Hw0. unfold no_objects in Hstart.
    by rewrite Hstart, lookup_empty in Hw0.
  - destruct (reachable_invariant st live Hreach) as [Hworlds _].
    by destruct (Hworlds w lw Hw) as (Hwf & _).
Qed.

End Properties.

(** ** The theorems at the sample engine *)

Lemma Sample_new_address_fresh : ∀ h, h !! Sample.new_address h = None.
Proof. intros h. apply not_elem_of_dom. unfold Sample.new_address. apply is_fresh. Qed.

Lemma Sample_lit_world n :
  heap (Sample.lit n) !! Sample.world = Some (OWorld Sample.lit_world).
Proof. vm_compute. reflexivity. Qed.

Lemma Sample_lit_lights n :
  all_lights (Sample.lit n) (dmArray.m_Elems (m_Lights Sample.lit_world)).
Proof. repeat constructor; eexists; vm_compute; reflexivity. Qed.

Lemma Sample_lit_without_render_world :
  heap Sample.lit_without_render !! Sample.world = Some (OWorld Sample.lit_world).
Proof. vm_compute. reflexivity. Qed.

Lemma Sample_lit_reachable :
  reachable Sample.GetSocket Sample.Post Sample.hash Sample.hash
    Sample.sizeof_SetLight Sample.m_DDFDescriptor Sample.new_address
    (ComponentOnMessageParams := unit) (Sample.lit 0) Sample.lit_live.
Proof.
  exists (Sample.start 0), Sample.three_lights. split; [reflexivity|].
  vm_compute. reflexivity.
Qed.

Lemma Sample_lit_live_world :
  Sample.lit_live !! Sample.world =
    Some (list_to_set [2%positive; 3%positive; 4%positive]).
Proof. vm_compute. reflexivity. Qed.

Local Abbreviation Sample_Update :=
  (CompLightUpdate Sample.GetSocket Sample.Post Sample.hash Sample.hash
     Sample.sizeof_SetLight Sample.m_DDFDescriptor
     (ComponentsUpdateParams.Make Sample.world) Sample.stack).

(** With room for every message, the three lights are posted in order. *)
Lemma CompLightUpdate_posts_every_light_witness :
  ∃ st',
    Sample_Update (Sample.lit 8) = Returns (UPDATE_RESULT_OK, st') ∧
    map (fun ev => m_Position (buf_set_light (post_data ev.1))) (posted st') =
      [(5, 10, 15); (6, 12, 18); (7, 14, 21)] ∧
    map (fun ev => m_Intensity (m_Light (buf_set_light (post_data ev.1)))) (posted st') =
      [10; 4; 10].
Proof.
  destruct (CompLightUpdate_posts_every_light
              Sample.Point3 Sample.Quat Sample.LightType Sample.Scalar Sample.Color
              Sample.Bus Sample.GetSocket Sample.Post Sample.hash Sample.hash
              Sample.sizeof_SetLight Sample.m_DDFDescriptor
              (Sample.lit 8) (ComponentsUpdateParams.Make Sample.world) Sample.stack
              Sample.lit_world 7)
    as (r & st' & evs & Hrun & Hposted & Hall & Hok).
  - apply Sample_lit_world.
  - apply Sample_lit_lights.
  - reflexivity.
  - exists st'. rewrite Hrun.
    vm_compute in Hrun. injection Hrun as <- <-. repeat split; reflexivity.
Defined.

(** C1 as it is written fails at the sample world of three lights: without
    a "@render" socket no light is posted, and with room for one message
    only the third light is never posted. *)
Lemma CompLightUpdate_posts_every_light_counterexample :
  ¬ (∃ r st' evs,
       Sample_Update Sample.lit_without_render = Returns (r, st') ∧
       posted st' = posted Sample.lit_without_render ++ evs ∧
       Forall2 (fun l ev => ∃ light,
                   heap Sample.lit_without_render !! l = Some (OLight light) ∧
                   carries_light Sample.lit_without_render light ev.1)
         (dmArray.m_Elems (m_Lights Sample.lit_world)) evs) ∧
  ¬ (∃ r st' evs,
       Sample_Update (Sample.lit 1) = Returns (r, st') ∧
       posted st' = posted (Sample.lit 1) ++ evs ∧
       Forall2 (fun l ev => ∃ light,
                   heap (Sample.lit 1) !! l = Some (OLight light) ∧
                   carries_light (Sample.lit 1) light ev.1)
         (dmArray.m_Elems (m_Lights Sample.lit_world)) evs).
Proof.
  split.
  - intros (r & st' & evs & Hrun & Hposted & Hall).
    vm_compute in Hrun. injection Hrun as _ <-.
    vm_compute in Hposted. subst evs.
    apply Forall2_length in Hall. discriminate Hall.
  - intros (r & st' & evs & Hrun & Hposted & Hall).
    vm_compute in Hrun. injection Hrun as _ <-.
    vm_compute in Hposted. subst evs.
    apply Forall2_length in Hall. discriminate Hall.
Qed.

(** The messages go to socket 7, the one registered as "@render"; without
    that socket nothing is posted. *)
Lemma CompLightUpdate_render_socket_witness :
  (∃ st',
     Sample_Update (Sample.lit 8) = Returns (UPDATE_RESULT_OK, st') ∧
     map (fun ev => (m_Socket (post_receiver ev.1), post_message_id ev.1)) (posted st') =
       [(7, u64 (Sample.hash "set_light")); (7, u64 (Sample.hash "set_light"));
        (7, u64 (Sample.hash "set_light"))]) ∧
  (∃ st',
     Sample_Update Sample.lit_without_render =
       Returns (UPDATE_RESULT_UNKNOWN_ERROR, st') ∧
     posted st' = []).
Proof.
  split.
  - destruct (CompLightUpdate_render_socket
                Sample.Point3 Sample.Quat Sample.LightType Sample.Scalar Sample.Color
                Sample.Bus Sample.GetSocket Sample.Post Sample.hash Sample.hash
                Sample.sizeof_SetLight Sample.m_DDFDescriptor
                (Sample.lit 8) (ComponentsUpdateParams.Make Sample.world) Sample.stack)
      as [Hfound _].
    destruct (Hfound Sample.lit_world 7)
      as (r & st' & evs & Hrun & Hposted & Hall).
    + apply Sample_lit_world.
    + apply Sample_lit_lights.
    + reflexivity.
    + exists st'. rewrite Hrun.
      vm_compute in Hrun. injection Hrun as <- <-. split; reflexivity.
  - destruct (CompLightUpdate_render_socket
                Sample.Point3 Sample.Quat Sample.LightType Sample.Scalar Sample.Color
                Sample.Bus Sample.GetSocket Sample.Post Sample.hash Sample.hash
                Sample.sizeof_SetLight Sample.m_DDFDescriptor
                Sample.lit_without_render (ComponentsUpdateParams.Make Sample.world)
                Sample.stack)
      as [_ Hmissing].
    destruct Hmissing as (st' & Hrun & Hposted & _).
    + vm_compute. intros H. discriminate H.
    + exists st'. split; [exact Hrun|]. rewrite Hposted. vm_compute. reflexivity.
Defined.

(** The tails of the three messages hold "95365F", "7" and "95365F". *)
Lemma CompLightUpdate_light_id_witness :
  ∃ st',
    Sample_Update (Sample.lit 8) = Returns (UPDATE_RESULT_OK, st') ∧
    map (fun ev => string_of_list_ascii (c_str (buf_tail (post_data ev.1)))) (posted st') =
      ["95365F"%string; "7"%string; "95365F"%string] ∧
    map (fun ev => m_Id (m_Light (buf_set_light (post_data ev.1)))) (posted st') =
      [80; 80; 80] ∧
    u32 (Sample.hash "lamp") = 9778783 ∧ u32 (Sample.hash EmptyString) = 7.
Proof.
  destruct (CompLightUpdate_light_id
              Sample.Point3 Sample.Quat Sample.LightType Sample.Scalar Sample.Color
              Sample.Bus Sample.GetSocket Sample.Post Sample.hash Sample.hash
              Sample.sizeof_SetLight Sample.m_DDFDescriptor
              (Sample.lit 8) (ComponentsUpdateParams.Make Sample.world) Sample.stack
              Sample.lit_world 7)
    as (r & st' & evs & Hrun & Hposted & Hall).
  - apply Sample_lit_world.
  - apply Sample_lit_lights.
  - reflexivity.
  - exists st'. rewrite Hrun.
    vm_compute in Hrun. injection Hrun as <- <-. repeat split; reflexivity.
Defined.

(** Every message has 89 bytes, and the six characters of 95365F are in
    the tail in full. *)
Lemma CompLightUpdate_buffer_fixed_size_witness :
  (∃ st',
     Sample_Update (Sample.lit 8) = Returns (UPDATE_RESULT_OK, st') ∧
     map (fun ev => post_data_size ev.1) (posted st') = [89; 89; 89] ∧
     map (fun ev => take 7 (buf_tail (post_data ev.1))) (posted st') !! 0%nat =
       Some (list_ascii_of_string "95365F" ++ [NUL])) ∧
  snprintf_X (vec_to_list (stack_tail Sample.stack)) 9 (u32 (Sample.hash "lamp")) =
    Returns (list_ascii_of_string "95365F" ++ NUL :: list_ascii_of_string "??", 6%nat).
Proof.
  destruct (CompLightUpdate_buffer_fixed_size
              Sample.Point3 Sample.Quat Sample.LightType Sample.Scalar Sample.Color
              Sample.Bus Sample.GetSocket Sample.Post Sample.hash Sample.hash
              Sample.sizeof_SetLight Sample.m_DDFDescriptor
              (Sample.lit 8) (ComponentsUpdateParams.Make Sample.world) Sample.stack
              Sample.lit_world 7)
    as [(r & st' & evs & Hrun & Hposted & Hall) Hfits].
  - unfold Sample.sizeof_SetLight. lia.
  - apply Sample_lit_world.
  - apply Sample_lit_lights.
  - reflexivity.
  - split.
    + exists st'. rewrite Hrun.
      vm_compute in Hrun. injection Hrun as <- <-. repeat split; reflexivity.
    + destruct (Hfits "lamp"%string (vec_to_list (stack_tail Sample.stack)) eq_refl)
        as [_ ->].
      vm_compute. reflexivity.
Defined.

(** With room for one message only, the second post fails: the first light
    has been posted, the third is not tried. *)
Lemma CompLightUpdate_stops_at_failure_witness :
  ∃ st',
    Sample_Update (Sample.lit 1) = Returns (UPDATE_RESULT_UNKNOWN_ERROR, st') ∧
    map snd (posted st') = [RESULT_OK; RESULT_ERROR (-5)] ∧
    log st' = ["Could not send set_light message to @render."%string].
Proof.
  destruct (CompLightUpdate_stops_at_failure
              Sample.Point3 Sample.Quat Sample.LightType Sample.Scalar Sample.Color
              Sample.Bus Sample.GetSocket Sample.Post Sample.hash Sample.hash
              Sample.sizeof_SetLight Sample.m_DDFDescriptor
              (Sample.lit 1) (ComponentsUpdateParams.Make Sample.world) Sample.stack
              Sample.lit_world 7)
    as (r & st' & evs & Hrun & Hposted & Hall & Hfail).
  - apply Sample_lit_world.
  - apply Sample_lit_lights.
  - reflexivity.
  - exists st'. rewrite Hrun.
    vm_compute in Hrun. injection Hrun as _ <-.
    vm_compute in Hposted. subst evs.
    destruct (Hfail 1%nat _ eq_refl) as (-> & _ & _ & _ & _ & Hlog).
    + intros H. discriminate H.
    + repeat split; reflexivity.
Defined.

Local Abbreviation Sample_lights w st :=
  (lights_of (Point3 := Sample.Point3) (Quat := Sample.Quat)
     (LightType := Sample.LightType) (Scalar := Sample.Scalar)
     (Color := Sample.Color) (Bus := Sample.Bus) w st).

(** A fourth light goes to the end of the list; destroying the first one
    leaves the other two; and after the run that made the three lights the
    list is the set of lights made. *)
Lemma light_list_tracks_live_lights_witness :
  (∃ light st',
     CompLightCreate Sample.new_address (ComponentCreateParams.Make 8 2 Sample.world)
       (Sample.lit 0) = Returns (CREATE_RESULT_OK, light, st') ∧
     light = 5%positive ∧
     Sample_lights Sample.world st' =
       Some [2%positive; 3%positive; 4%positive; 5%positive]) ∧
  (∃ st',
     CompLightDestroy (ComponentDestroyParams.Make Sample.world 2%positive)
       (Sample.lit 0) = Returns (CREATE_RESULT_OK, st') ∧
     Sample_lights Sample.world st' = Some [4%positive; 3%positive]) ∧
  (∃ s : gset ptr,
     Sample.lit_live !! Sample.world = Some s ∧
     ∀ x, x ∈ [2%positive; 3%positive; 4%positive] ↔ x ∈ s).
Proof.
  destruct (light_list_tracks_live_lights
              Sample.Point3 Sample.Quat Sample.LightType Sample.Scalar Sample.Color
              Sample.Bus unit Sample.GetSocket Sample.Post Sample.hash Sample.hash
              Sample.sizeof_SetLight Sample.m_DDFDescriptor Sample.new_address
              Sample_new_address_fresh)
    as (Hcreate & Hdestroy & Hrun).
  split; [|split].
  - destruct (Hcreate (Sample.lit 0) (ComponentCreateParams.Make 8 2 Sample.world)
                Sample.lit_world)
      as (light & st' & lw' & Hcall & _ & _ & Hw' & Helems).
    + apply Sample_lit_world.
    + unfold dmArray.wf. vm_compute. lia.
    + exists light, st'. split; [exact Hcall|].
      vm_compute in Hcall. injection Hcall as <- <-. split; reflexivity.
  - destruct (Hdestroy (Sample.lit 0) (ComponentDestroyParams.Make Sample.world 2%positive)
                Sample.lit_world {| m_Instance := 5; m_LightResource := 1 |})
      as (st' & lw' & Hcall & _ & Hw' & _ & _).
    + apply Sample_lit_world.
    + vm_compute. reflexivity.
    + simpl. apply NoDup_cons. split.
      { intros [H|H]%elem_of_cons; [discriminate H|].
        apply elem_of_cons in H as [H|H]; [discriminate H|].
        by apply elem_of_nil in H. }
      apply NoDup_cons. split.
      { intros [H|H]%elem_of_cons; [discriminate H|]. by apply elem_of_nil in H. }
      apply NoDup_singleton.
    + apply elem_of_cons. by left.
    + exists st'. split; [exact Hcall|].
      vm_compute in Hcall. injection Hcall as <-. reflexivity.
  - destruct (Hrun (Sample.lit 0) Sample.lit_live Sample.world Sample.lit_world)
      as (_ & s & Hs & Hiff).
    + apply Sample_lit_reachable.
    + apply Sample_lit_world.
    + by exists s.
Defined.

(** The first world of the sample engine is at address 1; deleting the
    world of the three lights frees that address. *)
Lemma world_created_empty_and_deleted_witness :
  (∃ w st',
     CompLightNewWorld Sample.new_address (Sample.start 0) =
       Returns (CREATE_RESULT_OK, w, st') ∧
     w = 1%positive ∧ Sample_lights w st' = Some []) ∧
  (∃ st',
     CompLightDeleteWorld (ComponentDeleteWorldParams.Make Sample.world) (Sample.lit 0) =
       Returns (CREATE_RESULT_OK, st') ∧
     heap st' !! Sample.world = None).
Proof.
  destruct (world_created_empty_and_deleted
              Sample.Point3 Sample.Quat Sample.LightType Sample.Scalar Sample.Color
              Sample.Bus Sample.new_address Sample_new_address_fresh)
    as (Hnew & Hdelete).
  split.
  - destruct (Hnew (Sample.start 0)) as (w & st' & Hcall & _ & Hempty & _).
    exists w, st'. split; [exact Hcall|]. split; [|exact Hempty].
    vm_compute in Hcall. by injection Hcall as <- _.
  - destruct (Hdelete (Sample.lit 0) (ComponentDeleteWorldParams.Make Sample.world)
                Sample.lit_world)
      as (st' & Hcall & Hfreed & _).
    + apply Sample_lit_world.
    + by exists st'.
Defined.

(** The first light of a new world finds capacity 0 and gets 16 slots; the
    fourth light still has room. *)
Lemma CompLightCreate_never_overflows_witness :
  dmArray.wf (m_Lights Sample.lit_world) ∧
  (∃ light st' lw',
     CompLightCreate Sample.new_address (ComponentCreateParams.Make 5 1 Sample.world)
       (Sample.after [NewWorld] (Sample.start 0)).1 =
       Returns (CREATE_RESULT_OK, light, st') ∧
     heap st' !! Sample.world = Some (OWorld lw') ∧
     dmArray.Capacity (m_Lights lw') = 16%nat ∧
     dmArray.m_Elems (m_Lights lw') = [light]) ∧
  (∃ light st' lw',
     CompLightCreate Sample.new_address (ComponentCreateParams.Make 8 2 Sample.world)
       (Sample.lit 0) = Returns (CREATE_RESULT_OK, light, st') ∧
     heap st' !! Sample.world = Some (OWorld lw') ∧
     dmArray.Capacity (m_Lights lw') = 16%nat ∧
     dmArray.Size (m_Lights lw') = 4%nat).
Proof.
  destruct (CompLightCreate_never_overflows
              Sample.Point3 Sample.Quat Sample.LightType Sample.Scalar Sample.Color
              Sample.Bus unit Sample.GetSocket Sample.Post Sample.hash Sample.hash
              Sample.sizeof_SetLight Sample.m_DDFDescriptor Sample.new_address
              Sample_new_address_fresh)
    as (Hwf & Hcreate).
  split; [|split].
  - apply (Hwf (Sample.lit 0) Sample.lit_live Sample.world).
    + apply Sample_lit_reachable.
    + apply Sample_lit_world.
  - destruct (Hcreate (Sample.after [NewWorld] (Sample.start 0)).1
                (ComponentCreateParams.Make 5 1 Sample.world)
                {| m_Lights := dmArray.empty |})
      as (light & st' & lw' & Hcall & Hw' & Hcap & Helems & _).
    + vm_compute. reflexivity.
    + unfold dmArray.wf. vm_compute. lia.
    + exists light, st', lw'. by repeat split.
  - destruct (Hcreate (Sample.lit 0) (ComponentCreateParams.Make 8 2 Sample.world)
                Sample.lit_world)
      as (light & st' & lw' & Hcall & Hw' & Hcap & Helems & _).
    + apply Sample_lit_world.
    + unfold dmArray.wf. vm_compute. lia.
    + exists light, st', lw'. split; [exact Hcall|]. split; [exact Hw'|].
      split; [exact Hcap|]. unfold dmArray.Size. by rewrite Helems.
Defined.

(** Destroying the first of the three lights: it is found at index 0, the
    last light takes its slot. *)
Lemma CompLightDestroy_finds_live_light_witness :
  ∃ st',
    CompLightDestroy (ComponentDestroyParams.Make Sample.world 2%positive) (Sample.lit 0) =
      Returns (CREATE_RESULT_OK, st') ∧
    heap st' !! 2%positive = None ∧
    Sample_lights Sample.world st' = Some [4%positive; 3%positive].
Proof.
  destruct (CompLightDestroy_finds_live_light
              Sample.Point3 Sample.Quat Sample.LightType Sample.Scalar Sample.Color
              Sample.Bus unit Sample.GetSocket Sample.Post Sample.hash Sample.hash
              Sample.sizeof_SetLight Sample.m_DDFDescriptor Sample.new_address
              Sample_new_address_fresh
              (Sample.lit 0) Sample.lit_live
              (ComponentDestroyParams.Make Sample.world 2%positive) Sample.lit_world
              (list_to_set [2%positive; 3%positive; 4%positive]))
    as (i & back & st' & Hi & Hback & Hcall & Hfreed & Hlist & _).
  - apply Sample_lit_reachable.
  - apply Sample_lit_world.
  - apply Sample_lit_live_world.
  - apply elem_of_list_to_set, elem_of_cons. by left.
  - exists st'. split; [exact Hcall|]. split; [exact Hfreed|].
    vm_compute in Hcall. injection Hcall as <-. reflexivity.
Defined.

(** ** The further properties at the sample engine *)

Lemma Sample_pair_reachable :
  reachable Sample.GetSocket Sample.Post Sample.hash Sample.hash
    Sample.sizeof_SetLight Sample.m_DDFDescriptor Sample.new_address
    (ComponentOnMessageParams := unit) Sample.pair Sample.pair_live.
Proof.
  exists (Sample.start 0), Sample.two_worlds. split; [reflexivity|].
  vm_compute. reflexivity.
Qed.

Lemma Sample_pair_first : heap Sample.pair !! 1%positive = Some (OWorld Sample.first_world).
Proof. vm_compute. reflexivity. Qed.

Lemma Sample_pair_second : heap Sample.pair !! 3%positive = Some (OWorld Sample.second_world).
Proof. vm_compute. reflexivity. Qed.

Lemma Sample_lit_NoDup : NoDup (dmArray.m_Elems (m_Lights Sample.lit_world)).
Proof.
  simpl. apply NoDup_cons. split.
  { intros [H|H]%elem_of_cons; [discriminate H|].
    apply elem_of_cons in H as [H|H]; [discriminate H|].
    by apply elem_of_nil in H. }
  apply NoDup_cons. split.
  { intros [H|H]%elem_of_cons; [discriminate H|]. by apply elem_of_nil in H. }
  apply NoDup_singleton.
Qed.

(** Address 9 is not a light of the sample world. *)
Lemma CompLightDestroy_unknown_light_asserts_witness :
  CompLightDestroy (ComponentDestroyParams.Make Sample.world 9%positive) (Sample.lit 0) =
    AssertionFailed.
Proof.
  apply (CompLightDestroy_unknown_light_asserts
           Sample.Point3 Sample.Quat Sample.LightType Sample.Scalar Sample.Color
           Sample.Bus (Sample.lit 0)
           (ComponentDestroyParams.Make Sample.world 9%positive) Sample.lit_world).
  - apply Sample_lit_world.
  - simpl. intros H.
    repeat (apply elem_of_cons in H as [H|H]; [discriminate H|]).
    by apply elem_of_nil in H.
Defined.

(** The light at address 2 can be destroyed once. *)
Lemma CompLightDestroy_twice_asserts_witness :
  ∃ st',
    CompLightDestroy (ComponentDestroyParams.Make Sample.world 2%positive) (Sample.lit 0) =
      Returns (CREATE_RESULT_OK, st') ∧
    CompLightDestroy (ComponentDestroyParams.Make Sample.world 2%positive) st' =
      AssertionFailed.
Proof.
  apply (CompLightDestroy_twice_asserts
           Sample.Point3 Sample.Quat Sample.LightType Sample.Scalar Sample.Color
           Sample.Bus (Sample.lit 0)
           (ComponentDestroyParams.Make Sample.world 2%positive) Sample.lit_world
           {| m_Instance := 5; m_LightResource := 1 |}).
  - apply Sample_lit_world.
  - vm_compute. reflexivity.
  - apply Sample_lit_NoDup.
  - apply elem_of_cons. by left.
Defined.

(** The light of the first world is not in the list of the second. *)
Lemma lights_of_worlds_disjoint_witness :
  2%positive ∉ dmArray.m_Elems (m_Lights Sample.second_world).
Proof.
  apply (lights_of_worlds_disjoint
           Sample.Point3 Sample.Quat Sample.LightType Sample.Scalar Sample.Color
           Sample.Bus unit Sample.GetSocket Sample.Post Sample.hash Sample.hash
           Sample.sizeof_SetLight Sample.m_DDFDescriptor Sample.new_address
           Sample_new_address_fresh
           Sample.pair Sample.pair_live 1%positive 3%positive
           Sample.first_world Sample.second_world).
  - apply Sample_pair_reachable.
  - intros H. discriminate H.
  - apply Sample_pair_first.
  - apply Sample_pair_second.
  - apply elem_of_cons. by left.
Defined.

(** The light of the first world cannot be destroyed through the second. *)
Lemma CompLightDestroy_wrong_world_asserts_witness :
  CompLightDestroy (ComponentDestroyParams.Make 3%positive 2%positive) Sample.pair =
    AssertionFailed.
Proof.
  apply (CompLightDestroy_wrong_world_asserts
           Sample.Point3 Sample.Quat Sample.LightType Sample.Scalar Sample.Color
           Sample.Bus unit Sample.GetSocket Sample.Post Sample.hash Sample.hash
           Sample.sizeof_SetLight Sample.m_DDFDescriptor Sample.new_address
           Sample_new_address_fresh
           Sample.pair Sample.pair_live
           (ComponentDestroyParams.Make 3%positive 2%positive) 1%positive
           Sample.first_world Sample.second_world (list_to_set [2%positive])).
  - apply Sample_pair_reachable.
  - intros H. discriminate H.
  - apply Sample_pair_first.
  - apply Sample_pair_second.
  - vm_compute. reflexivity.
  - apply elem_of_list_to_set, elem_of_cons. by left.
Defined.

(** A fourth light, created and destroyed, leaves the three lights in
    their order. *)
Lemma CompLightCreate_then_Destroy_witness :
  ∃ light st1 st2,
    CompLightCreate Sample.new_address (ComponentCreateParams.Make 8 2 Sample.world)
      (Sample.lit 0) = Returns (CREATE_RESULT_OK, light, st1) ∧
    CompLightDestroy (ComponentDestroyParams.Make Sample.world light) st1 =
      Returns (CREATE_RESULT_OK, st2) ∧
    Sample_lights Sample.world st2 = Some [2%positive; 3%positive; 4%positive].
Proof.
  destruct (CompLightCreate_then_Destroy
              Sample.Point3 Sample.Quat Sample.LightType Sample.Scalar Sample.Color
              Sample.Bus Sample.new_address Sample_new_address_fresh
              (Sample.lit 0) (ComponentCreateParams.Make 8 2 Sample.world)
              Sample.lit_world)
    as (light & st1 & st2 & Hcreate & Hdestroy & Hlist & _).
  - apply Sample_lit_world.
  - unfold dmArray.wf. vm_compute. lia.
  - apply Sample_lit_lights.
  - by exists light, st1, st2.
Defined.

(** After the world of the three lights is deleted, the light at address 2
    is still allocated. *)
Lemma CompLightDeleteWorld_leaves_lights_witness :
  ∃ st' x,
    CompLightDeleteWorld (ComponentDeleteWorldParams.Make Sample.world) (Sample.lit 0) =
      Returns (CREATE_RESULT_OK, st') ∧
    heap st' !! Sample.world = None ∧
    heap st' !! 2%positive = Some (OLight x).
Proof.
  destruct (CompLightDeleteWorld_leaves_lights
              Sample.Point3 Sample.Quat Sample.LightType Sample.Scalar Sample.Color
              Sample.Bus unit Sample.GetSocket Sample.Post Sample.hash Sample.hash
              Sample.sizeof_SetLight Sample.m_DDFDescriptor Sample.new_address
              Sample_new_address_fresh
              (Sample.lit 0) Sample.lit_live
              (ComponentDeleteWorldParams.Make Sample.world) Sample.lit_world)
    as (st' & Hrun & Hall & _).
  - apply Sample_lit_reachable.
  - apply Sample_lit_world.
  - destruct (Forall_inv Hall) as [x Hx].
    exists st', x. split; [exact Hrun|]. split; [|exact Hx].
    vm_compute in Hrun. injection Hrun as <-. reflexivity.
Defined.

(** The sample world has 3 lights in 16 slots. *)
Lemma capacity_in_blocks_of_16_witness :
  (dmArray.Capacity (m_Lights Sample.lit_world) mod 16 = 0)%nat ∧
  (dmArray.Size (m_Lights Sample.lit_world) <= dmArray.Capacity (m_Lights Sample.lit_world))%nat.
Proof.
  apply (capacity_in_blocks_of_16
           Sample.Point3 Sample.Quat Sample.LightType Sample.Scalar Sample.Color
           Sample.Bus unit Sample.GetSocket Sample.Post Sample.hash Sample.hash
           Sample.sizeof_SetLight Sample.m_DDFDescriptor Sample.new_address
           Sample_new_address_fresh
           (Sample.lit 0) Sample.lit_live Sample.world).
  - apply Sample_lit_reachable.
  - apply Sample_lit_world.
Defined.

(** A failing update of the three lights changes neither the lights nor the
    engine's data; it adds two calls to the record and one line to the log. *)
Lemma CompLightUpdate_only_posts_and_logs_witness :
  ∃ st',
    Sample_Update (Sample.lit 1) = Returns (UPDATE_RESULT_UNKNOWN_ERROR, st') ∧
    same_scene (Sample.lit 1) st' ∧
    length (posted st') = 2%nat ∧
    ∃ line, log st' = log (Sample.lit 1) ++ [line].
Proof.
  destruct (Sample_Update (Sample.lit 1)) as [[r st']| |] eqn:Hrun.
  - destruct (CompLightUpdate_only_posts_and_logs
                Sample.Point3 Sample.Quat Sample.LightType Sample.Scalar Sample.Color
                Sample.Bus Sample.GetSocket Sample.Post Sample.hash Sample.hash
                Sample.sizeof_SetLight Sample.m_DDFDescriptor
                (Sample.lit 1) (ComponentsUpdateParams.Make Sample.world) Sample.stack
                r st' Hrun)
      as (Hscene & _ & Hlog).
    exists st'. vm_compute in Hrun. injection Hrun as Hr Hst. subst r.
    split; [reflexivity|]. split; [exact Hscene|]. split; [by subst st'|exact Hlog].
  - vm_compute in Hrun. discriminate Hrun.
  - vm_compute in Hrun. discriminate Hrun.
Defined.

(** The second light has the one-character id 7: behind it the message
    still holds the end of the first light's id. *)
Lemma CompLightUpdate_tail_keeps_old_bytes_witness :
  ∃ st',
    Sample_Update (Sample.lit 8) = Returns (UPDATE_RESULT_OK, st') ∧
    written_in_turn (vec_to_list (stack_tail Sample.stack))
      (map (fun ev => buf_tail (post_data ev.1)) (posted st')) ∧
    map (fun ev => buf_tail (post_data ev.1)) (posted st') !! 1%nat =
      Some (list_ascii_of_string "7" ++ NUL :: list_ascii_of_string "365F" ++
            NUL :: list_ascii_of_string "??").
Proof.
  destruct (CompLightUpdate_tail_keeps_old_bytes
              Sample.Point3 Sample.Quat Sample.LightType Sample.Scalar Sample.Color
              Sample.Bus Sample.GetSocket Sample.Post Sample.hash Sample.hash
              Sample.sizeof_SetLight Sample.m_DDFDescriptor
              (Sample.lit 8) (ComponentsUpdateParams.Make Sample.world) Sample.stack
              Sample.lit_world 7)
    as (r & st' & evs & Hrun & Hposted & Hturn).
  - apply Sample_lit_world.
  - apply Sample_lit_lights.
  - reflexivity.
  - exists st'. rewrite Hrun.
    change (posted (Sample.lit 8)) with
      (@nil (PostCall Sample.Point3 Sample.Quat Sample.LightType Sample.Scalar
               Sample.Color * MessageResult)) in Hposted.
    simpl in Hposted. rewrite Hposted.
    split; [|split; [exact Hturn|]].
    + vm_compute in Hrun. by injection Hrun as <- _.
    + rewrite <- Hposted. vm_compute in Hrun. injection Hrun as _ <-. reflexivity.
Defined.

(** Creating a light in the sample world leaves bus, record and log alone. *)
Lemma lifecycle_callbacks_only_touch_free_store_witness :
  ∃ light st',
    CompLightCreate Sample.new_address (ComponentCreateParams.Make 8 2 Sample.world)
      (Sample.lit 0) = Returns (CREATE_RESULT_OK, light, st') ∧
    same_engine (Sample.lit 0) st'.
Proof.
  destruct (CompLightCreate Sample.new_address
              (ComponentCreateParams.Make 8 2 Sample.world) (Sample.lit 0))
    as [[[r light] st']| |] eqn:Hrun.
  - destruct (lifecycle_callbacks_only_touch_free_store
                Sample.Point3 Sample.Quat Sample.LightType Sample.Scalar Sample.Color
                Sample.Bus Sample.new_address)
      as (_ & _ & Hcreate & _).
    destruct (Hcreate _ _ _ _ _ Hrun) as [-> Heng].
    by exists light, st'.
  - vm_compute in Hrun. discriminate Hrun.
  - vm_compute in Hrun. discriminate Hrun.
Defined.

(** With room for every message the update is OK and there are three
    posts; with room for one it is not, and there are two. *)
Lemma CompLightUpdate_OK_iff_all_posted_witness :
  (∃ st', Sample_Update (Sample.lit 8) = Returns (UPDATE_RESULT_OK, st') ∧
          length (posted st') = 3%nat) ∧
  (∃ st', Sample_Update (Sample.lit 1) = Returns (UPDATE_RESULT_UNKNOWN_ERROR, st') ∧
          length (posted st') ≠ 3%nat).
Proof.
  split.
  - destruct (CompLightUpdate_OK_iff_all_posted
                Sample.Point3 Sample.Quat Sample.LightType Sample.Scalar Sample.Color
                Sample.Bus Sample.GetSocket Sample.Post Sample.hash Sample.hash
                Sample.sizeof_SetLight Sample.m_DDFDescriptor
                (Sample.lit 8) (ComponentsUpdateParams.Make Sample.world) Sample.stack
                Sample.lit_world 7)
      as (r & st' & evs & Hrun & Hposted & Hiff).
    + apply Sample_lit_world.
    + apply Sample_lit_lights.
    + reflexivity.
    + assert (Hr : r = UPDATE_RESULT_OK).
      { pose proof Hrun as Hrun'. vm_compute in Hrun'. by injection Hrun' as <- _. }
      exists st'. split; [by rewrite Hrun, Hr|].
      apply Hiff in Hr as [Hlen%Forall2_length _].
      rewrite Hposted, length_app, <- Hlen. reflexivity.
  - destruct (CompLightUpdate_OK_iff_all_posted
                Sample.Point3 Sample.Quat Sample.LightType Sample.Scalar Sample.Color
                Sample.Bus Sample.GetSocket Sample.Post Sample.hash Sample.hash
                Sample.sizeof_SetLight Sample.m_DDFDescriptor
                (Sample.lit 1) (ComponentsUpdateParams.Make Sample.world) Sample.stack
                Sample.lit_world 7)
      as (r & st' & evs & Hrun & Hposted & Hiff).
    + apply Sample_lit_world.
    + apply Sample_lit_lights.
    + reflexivity.
    + assert (Hr : r = UPDATE_RESULT_UNKNOWN_ERROR).
      { pose proof Hrun as Hrun'. vm_compute in Hrun'. by injection Hrun' as <- _. }
      exists st'. split; [by rewrite Hrun, Hr|].
      vm_compute in Hrun. injection Hrun as _ <-. intros H. discriminate H.
Defined.

(** Work on the first world leaves the list of the second world as it is. *)
Lemma other_worlds_keep_their_lists_witness :
  (∃ light st',
     CompLightCreate Sample.new_address (ComponentCreateParams.Make 8 2 1%positive)
       Sample.pair = Returns (CREATE_RESULT_OK, light, st') ∧
     Sample_lights 3%positive st' = Some [4%positive]) ∧
  (∃ st',
     CompLightDestroy (ComponentDestroyParams.Make 1%positive 2%positive) Sample.pair =
       Returns (CREATE_RESULT_OK, st') ∧
     Sample_lights 3%positive st' = Some [4%positive]).
Proof.
  destruct (other_worlds_keep_their_lists
              Sample.Point3 Sample.Quat Sample.LightType Sample.Scalar Sample.Color
              Sample.Bus Sample.new_address Sample_new_address_fresh)
    as (Hcreate & Hdestroy).
  split.
  - destruct (Hcreate Sample.pair (ComponentCreateParams.Make 8 2 1%positive)
                Sample.first_world 3%positive)
      as (light & st' & Hrun & Hsame).
    + apply Sample_pair_first.
    + unfold dmArray.wf. vm_compute. lia.
    + intros H. discriminate H.
    + exists light, st'. split; [exact Hrun|]. rewrite Hsame. vm_compute. reflexivity.
  - destruct (Hdestroy Sample.pair (ComponentDestroyParams.Make 1%positive 2%positive)
                Sample.first_world {| m_Instance := 5; m_LightResource := 1 |} 3%positive)
      as (st' & Hrun & Hsame).
    + apply Sample_pair_first.
    + vm_compute. reflexivity.
    + apply elem_of_cons. by left.
    + intros H. discriminate H.
    + exists st'. split; [exact Hrun|]. rewrite Hsame. vm_compute. reflexivity.
Defined.
